(** * nevergrad/parametrization/choice.py: categorical choice parameters

    A shallow embedding of [BaseChoice], [Choice] and [TransitionChoice].
    Python objects mutated in place become explicit state records; a method
    that can raise returns a [result] together with the state it leaves
    behind, so that what an exception leaves modified stays visible.
    numpy floats are read as real numbers. *)

From Stdlib Require Import ZArith Reals Lra Lia String.
From stdpp Require Import base list.

Local Open Scope nat_scope.

(** ** Python values and exceptions *)

(** The values that flow through [value], [set_value] and [get_value_hash]. *)
#[warnings="-register-all"]
Inductive pyvalue : Type :=
  | PNone
  | PInt (z : Z)
  | PStr (s : string)
  | PTuple (items : list pyvalue).

(** The exceptions the module raises or lets through. *)
Inductive pyexn : Type :=
  | EmptyChoices          (* ValueError: received an empty list of options *)
  | NoMatchingCandidate   (* ValueError: Could not figure out where to put value *)
  | Frozen                (* raised by _check_frozen *)
  | AssertionError
  | IndexError
  | KeyError
  | TypeError
  | OtherError.

Inductive result (A : Type) : Type :=
  | Ok (a : A)
  | Raise (e : pyexn).
Arguments Ok {A} a.
Arguments Raise {A} e.

Definition is_ok {A} (r : result A) : bool :=
  match r with Ok _ => true | Raise _ => false end.

(** [len(values)] / [enumerate(values)]: tuples and strings are sequences,
    the other values are not. *)
Fixpoint chars (s : string) : list pyvalue :=
  match s with
  | EmptyString => []
  | String c s' => PStr (String c EmptyString) :: chars s'
  end.

Definition py_iter (v : pyvalue) : result (list pyvalue) :=
  match v with
  | PTuple items => Ok items
  | PStr s => Ok (chars s)
  | PNone | PInt _ => Raise TypeError
  end.

Fixpoint pyvalue_eqb (a b : pyvalue) : bool :=
  match a, b with
  | PNone, PNone => true
  | PInt x, PInt y => Z.eqb x y
  | PStr s, PStr t => String.eqb s t
  | PTuple xs, PTuple ys =>
      (fix all2 (xs ys : list pyvalue) : bool :=
         match xs, ys with
         | [], [] => true
         | x :: xs', y :: ys' => pyvalue_eqb x y && all2 xs' ys'
         | _, _ => false
         end) xs ys
  | _, _ => false
  end.

(** ** External collaborators *)

(** What [isinstance] tells [get_value_hash] about an option. *)
Inductive param_kind : Type :=
  | NotAParameter
  | IsConstant
  | IsParameter.

(** The interface of an option of the candidate set (core.Parameter):
    [c.value], [c.value = v] (which may raise, and says in which state it
    leaves [c]), [c.mutate()] drawing from the shared random state, and
    [c.get_value_hash()]. *)
Class Param (P RS : Type) : Type := {
  param_kind_of : P -> param_kind;
  param_value : P -> pyvalue;
  param_set_value : pyvalue -> P -> result unit * P;
  param_mutate : P -> RS -> P * RS;
  param_value_hash : P -> pyvalue
}.

Abbreviation matrix := (list (list R)) (only parsing).

(** The numeric collaborators: the shared numpy random state, the mutation
    of an Array backing, the iteration order of a Python [set], and the
    library functions of discretization.py that the spec leaves open. *)
Class Collaborators (RS : Type) : Type := {
  (* random_state.choice(list(range(len(p))), p=p) *)
  rs_choice : list R -> RS -> nat * RS;
  (* random_state.randint(2), read as a truth value *)
  rs_randint2 : RS -> bool * RS;
  (* Array.mutate() on a two-dimensional and on a one-dimensional value *)
  array_mutate : matrix -> RS -> matrix * RS;
  vector_mutate : list R -> RS -> list R * RS;
  (* the order in which [for ind in set(indices)] visits the elements *)
  set_iter : list Z -> list Z;
  (* discretization.weight_for_reset *)
  weight_for_reset : nat -> R;
  (* scipy.stats.norm.cdf and norm.ppf *)
  norm_cdf : R -> R;
  norm_ppf : R -> R
}.

(** Contracts of the collaborators, assumed where a statement needs them. *)
Definition choice_in_range `{Collaborators RS} : Prop :=
  forall (p : list R) (rs : RS), p <> [] -> (rs_choice p rs).1 < length p.

Definition mutate_keeps_shape `{Collaborators RS} : Prop :=
  forall (w : matrix) (rs : RS),
    length <$> (array_mutate w rs).1 = length <$> w.

Definition set_iter_is_set `{Collaborators RS} : Prop :=
  forall (l : list Z), NoDup (set_iter l) /\ forall x, x ∈ set_iter l <-> x ∈ l.

(** ** Array arithmetic *)

Definition rsum (l : list R) : R := foldr Rplus 0%R l.

Definition zeros_like (w : matrix) : matrix :=
  (fun row : list R => (fun _ : R => 0%R) <$> row) <$> w.

Fixpoint vadd (a b : list R) : list R :=
  match a, b with
  | x :: a', y :: b' => (x + y)%R :: vadd a' b'
  | _, _ => []
  end.

Fixpoint madd (a b : matrix) : matrix :=
  match a, b with
  | x :: a', y :: b' => vadd x y :: madd a' b'
  | _, _ => []
  end.

(** The softmax of one weight row as the description of [probabilities]
    words it: [exp(w_j) / sum_k exp(w_k)]. *)
Definition row_softmax (row : list R) : list R :=
  (fun x : R => (exp x / rsum (exp <$> row))%R) <$> row.

(** The weight matrix the description of [set_value] asks for: zero
    everywhere, except the confidence [coeff] in the drawn column of each
    drawn row. [shape] lists the lengths of the rows. *)
Definition reset_matrix (coeff : R) (indices : list Z) (shape : list nat)
  : list (list R) :=
  imap (fun (r n : nat) =>
          (fun j : nat =>
             if decide (indices !! r = Some (Z.of_nat j)) then coeff else 0%R)
            <$> seq 0 n)
       shape.

(** [w.shape[1]], read off the first row. *)
Definition ncols (w : matrix) : nat :=
  match w with
  | row :: _ => length row
  | [] => 0
  end.

(** Modelled from the spec: Array.set_standardized_data (data.py is not
    part of the sources). The data is an offset from the reference, which
    is the array itself; the weights are built with a unit, immutable
    sigma, so the new value is [value + data]. *)
Definition array_set_standardized_data (data value : matrix) : matrix :=
  madd value data.

(** [out[np.arange(indices.size), indices] = coeff] *)
Fixpoint fancy_assign (coeff : R) (i : nat) (indices : list Z) (out : matrix)
  : result matrix :=
  match indices with
  | [] => Ok out
  | ind :: rest =>
      match out !! i with
      | None => Raise IndexError
      | Some row =>
          if ((ind <? 0)%Z || (Z.of_nat (length row) <=? ind)%Z)%bool
          then Raise IndexError
          else fancy_assign coeff (S i) rest
                 (<[i := <[Z.to_nat ind := coeff]> row]> out)
      end
  end.

(** ** The discretization engine *)

Section Discretization.
Context {RS : Type} `{Collaborators RS}.

Fixpoint argmax_from (best : R) (besti i : nat) (row : list R) : nat :=
  match row with
  | [] => besti
  | w :: rest =>
      if Rlt_dec best w
      then argmax_from w i (S i) rest
      else argmax_from best besti (S i) rest
  end.

(** The column of the maximum, the first one on ties. *)
Definition argmax (row : list R) : nat :=
  match row with
  | [] => 0
  | w :: rest => argmax_from w 0 1 rest
  end.

Definition row_max (row : list R) : R :=
  match row with
  | [] => 0%R
  | w :: rest => foldr Rmax w rest
  end.

(** Softmax of one row, the maximum subtracted before exponentiating. *)
Definition softmax (row : list R) : list R :=
  let e := (fun w => exp (w - row_max row)) <$> row in
  (fun x => x / rsum e)%R <$> e.

Definition encode_row (deterministic : bool) (row : list R) (rs : RS)
  : nat * RS :=
  if deterministic then (argmax row, rs) else rs_choice (softmax row) rs.

(** Modelled from the spec: discretization.Encoder(weights, rng).encode
    (discretization.py is not part of the sources). Each row is decoded
    on its own: the argmax when [deterministic], otherwise a column
    sampled from the softmax of the row with the random source. *)
Fixpoint encode (deterministic : bool) (weights : matrix) (rs : RS)
  : list Z * RS :=
  match weights with
  | [] => ([], rs)
  | row :: rest =>
      let '(j, rs1) := encode_row deterministic row rs in
      let '(js, rs2) := encode deterministic rest rs1 in
      (Z.of_nat j :: js, rs2)
  end.

(** Modelled from the spec: discretization.threshold_discretization
    (not part of the sources). The real line is cut into [arity]
    intervals of equal probability under the standard normal CDF; the
    result is the interval of [x], clipped to [0, arity - 1]. *)
Definition threshold_discretization (x : R) (arity : nat) : Z :=
  Z.min (Z.max (Zfloor (INR arity * norm_cdf x)) 0) (Z.of_nat arity - 1).

(** Modelled from the spec: discretization.inverse_threshold_discretization
    (not part of the sources): the inverse CDF at the centre of the
    interval of [index]. *)
Definition inverse_threshold_discretization (index : Z) (arity : nat) : R :=
  norm_ppf ((IZR index + 1 / 2) / INR arity)%R.
End Discretization.

(** ** BaseChoice: the logic shared by both variants *)

Module BaseChoice.
Section Defs.
Context {P RS : Type} `{Param P RS}.

(** [self.choices[k]]: the candidate container is keyed by 0 .. arity-1. *)
Definition getitem (content : list P) (k : Z) : result P :=
  if (k <? 0)%Z then Raise KeyError
  else match content !! Z.to_nat k with
       | Some c => Ok c
       | None => Raise KeyError
       end.

(** Modelled from the spec: the frozen-check primitive of core.Parameter
    (core.py is not part of the sources): it fails if the instance has
    been frozen. *)
Definition _check_frozen (frozen : bool) : result unit :=
  if frozen then Raise Frozen else Ok tt.

(** [_get_value]: [core.as_parameter(self.choices[index]).value]. *)
Definition _get_value (index : Z) (content : list P) : result pyvalue :=
  match getitem content index with
  | Ok c => Ok (param_value c)
  | Raise e => Raise e
  end.

(** Whether a candidate takes [value], and the state the attempt leaves
    it in. *)
Definition accepts (value : pyvalue) (c : P) : bool :=
  is_ok (param_set_value value c).1.

Definition after_attempt (value : pyvalue) (c : P) : P :=
  (param_set_value value c).2.

(** The inner loop of [_find_and_set_value], [for k in nums], for one
    value: the key of the first candidate that takes the value, or the
    initial -1. A failed assignment is caught and the loop goes on. *)
Fixpoint try_candidates (value : pyvalue) (nums : list nat) (content : list P)
  : result Z * list P :=
  match nums with
  | [] => (Ok (-1)%Z, content)
  | k :: nums' =>
      match content !! k with
      | None => (Raise KeyError, content)
      | Some choice =>
          match param_set_value value choice with
          | (Ok _, choice') => (Ok (Z.of_nat k), <[k := choice']> content)
          | (Raise _, choice') =>
              try_candidates value nums' (<[k := choice']> content)
          end
      end
  end.

(** The outer loop, [for i, value in enumerate(values)]. *)
Fixpoint assign_values (values : list pyvalue) (nums : list nat)
  (content : list P) : result (list Z) * list P :=
  match values with
  | [] => (Ok [], content)
  | value :: rest =>
      match try_candidates value nums content with
      | (Raise e, content1) => (Raise e, content1)
      | (Ok k, content1) =>
          if (k =? -1)%Z then (Raise NoMatchingCandidate, content1)
          else match assign_values rest nums content1 with
               | (Ok ks, content2) => (Ok (k :: ks), content2)
               | (Raise e, content2) => (Raise e, content2)
               end
      end
  end.

(** [nums = sorted(int(k) for k in self.choices._content)] *)
Definition sorted_keys (content : list P) : list nat := seq 0 (length content).

Definition _find_and_set_value (frozen : bool) (values : list pyvalue)
  (content : list P) : result (list Z) * list P :=
  match _check_frozen frozen with
  | Raise e => (Raise e, content)
  | Ok _ => assign_values values (sorted_keys content) content
  end.

Definition is_const (c : P) : bool :=
  match param_kind_of c with
  | IsParameter => false
  | IsConstant | NotAParameter => true
  end.

(** [int(ind) if const else (int(ind), c.get_value_hash())] *)
Definition hash_entry (ind : Z) (c : P) : pyvalue :=
  if is_const c then PInt ind else PTuple [PInt ind; param_value_hash c].

Fixpoint hash_entries (indices : list Z) (content : list P)
  : result (list pyvalue) :=
  match indices with
  | [] => Ok []
  | ind :: rest =>
      match getitem content ind with
      | Raise e => Raise e
      | Ok c =>
          match hash_entries rest content with
          | Ok hashes => Ok (hash_entry ind c :: hashes)
          | Raise e => Raise e
          end
      end
  end.

(** [get_value_hash], given what [self.indices] returned. *)
Definition get_value_hash (indices : list Z) (content : list P)
  : result pyvalue :=
  match hash_entries indices content with
  | Raise e => Raise e
  | Ok hashes =>
      if 1 <? length hashes then Ok (PTuple hashes)
      else match hashes with
           | h :: _ => Ok h
           | [] => Raise IndexError
           end
  end.
End Defs.
End BaseChoice.

(** ** Choice: the unordered variant *)

Module Choice.
Section Defs.
Context {P RS : Type} `{Param P RS} `{Collaborators RS}.

Record t : Type := mk {
  choices : list P;
  weights : list (list R);
  _repetitions : option nat;
  _deterministic : bool;
  _indices : option (list Z);
  _frozen : bool;
  random_state : RS
}.

Definition with_choices (content : list P) (st : t) : t :=
  mk content (weights st) (_repetitions st) (_deterministic st)
     (_indices st) (_frozen st) (random_state st).

Definition with_weights (w : list (list R)) (st : t) : t :=
  mk (choices st) w (_repetitions st) (_deterministic st)
     (_indices st) (_frozen st) (random_state st).

Definition with_indices (i : option (list Z)) (st : t) : t :=
  mk (choices st) (weights st) (_repetitions st) (_deterministic st)
     i (_frozen st) (random_state st).

Definition with_random_state (rs : RS) (st : t) : t :=
  mk (choices st) (weights st) (_repetitions st) (_deterministic st)
     (_indices st) (_frozen st) rs.

(** [__init__]: an empty list of options is refused; the weights are a
    fresh Array of shape (rep, len(choices)), which starts at zero. *)
Definition init (lchoices : list P) (repetitions : option nat)
  (deterministic : bool) (rs : RS) : result t :=
  match lchoices with
  | [] => Raise EmptyChoices
  | _ =>
      let rep := match repetitions with None => 1 | Some n => n end in
      Ok (mk lchoices (replicate rep (replicate (length lchoices) 0%R))
            repetitions deterministic None false rs)
  end.

Definition _draw (deterministic : bool) (st : t) : t :=
  let '(inds, rs) :=
    encode (deterministic || _deterministic st) (weights st) (random_state st) in
  with_random_state rs (with_indices (Some inds) st).

(** The [indices] property: drawn on first use, cached afterwards. *)
Definition indices (st : t) : list Z * t :=
  match _indices st with
  | Some inds => (inds, st)
  | None =>
      let st' := _draw (_deterministic st) st in
      (default [] (_indices st'), st')
  end.

(** The [index] property. *)
Definition index (st : t) : result Z * t :=
  let '(inds, st') := indices st in
  if length inds =? 1
  then (match inds with i :: _ => Ok i | [] => Raise IndexError end, st')
  else (Raise AssertionError, st').

(** The [probabilities] property:
    [exp = np.exp(self.weights.value); return exp / np.sum(exp)]. *)
Definition probabilities (st : t) : list (list R) :=
  let e := (fun row : list R => exp <$> row) <$> weights st in
  let total := rsum (rsum <$> e) in
  (fun row : list R => (fun x : R => (x / total)%R) <$> row) <$> e.

Fixpoint values_at (inds : list Z) (content : list P)
  : result (list pyvalue) :=
  match inds with
  | [] => Ok []
  | ind :: rest =>
      match BaseChoice._get_value ind content with
      | Raise e => Raise e
      | Ok v =>
          match values_at rest content with
          | Ok vs => Ok (v :: vs)
          | Raise e => Raise e
          end
      end
  end.

Definition _get_value (st : t) : result pyvalue * t :=
  match _repetitions st with
  | None =>
      match index st with
      | (Ok i, st') => (BaseChoice._get_value i (choices st'), st')
      | (Raise e, st') => (Raise e, st')
      end
  | Some _ =>
      let '(inds, st') := indices st in
      match values_at inds (choices st') with
      | Ok vs => (Ok (PTuple vs), st')
      | Raise e => (Raise e, st')
      end
  end.

(** The part of [_find_and_set_value] after the candidates took the
    values: record the indices, then force new probabilities. *)
Definition reset_weights (indices : list Z) (st : t) : result unit * t :=
  let st1 := with_indices (Some indices) st in
  let arity := ncols (weights st1) in
  let coeff := weight_for_reset arity in
  let st2 := with_weights (zeros_like (weights st1)) st1 in
  match fancy_assign coeff 0 indices (weights st2) with
  | Raise e => (Raise e, st2)
  | Ok out =>
      (Ok tt, with_weights (array_set_standardized_data out (weights st2)) st2)
  end.

Definition _find_and_set_value (values : pyvalue) (st : t)
  : result (list Z) * t :=
  let lvalues :=
    match _repetitions st with
    | None => Ok [values]
    | Some _ => py_iter values
    end in
  match lvalues with
  | Raise e =>
      (* _check_frozen runs before len(values) is taken *)
      match BaseChoice._check_frozen (_frozen st) with
      | Raise e' => (Raise e', st)
      | Ok _ => (Raise e, st)
      end
  | Ok vs =>
      match BaseChoice._find_and_set_value (_frozen st) vs (choices st) with
      | (Raise e, content) => (Raise e, with_choices content st)
      | (Ok inds, content) =>
          match reset_weights inds (with_choices content st) with
          | (Ok _, st') => (Ok inds, st')
          | (Raise e, st') => (Raise e, st')
          end
      end
  end.

(** The setter of the [value] property. *)
Definition set_value (values : pyvalue) (st : t) : result unit * t :=
  match _find_and_set_value values st with
  | (Ok _, st') => (Ok tt, st')
  | (Raise e, st') => (Raise e, st')
  end.

(** [for ind in indices: self.choices[ind].mutate()] *)
Fixpoint mutate_each (inds : list Z) (st : t) : result unit * t :=
  match inds with
  | [] => (Ok tt, st)
  | ind :: rest =>
      match BaseChoice.getitem (choices st) ind with
      | Raise e => (Raise e, st)
      | Ok c =>
          let '(c', rs) := param_mutate c (random_state st) in
          mutate_each rest
            (with_random_state rs
               (with_choices (<[Z.to_nat ind := c']> (choices st)) st))
      end
  end.

Definition mutate (st : t) : result unit * t :=
  let '(w, rs) := array_mutate (weights st) (random_state st) in
  let st1 := with_random_state rs (with_weights w st) in
  let st2 := _draw (_deterministic st1) st1 in
  let '(inds, st3) := indices st2 in
  mutate_each (set_iter inds) st3.

Definition get_value_hash (st : t) : result pyvalue * t :=
  let '(inds, st') := indices st in
  (BaseChoice.get_value_hash inds (choices st'), st').

(** What a caller does with an instance over its life: read [indices],
    [index], [value] or the value hash, call [mutate()], or assign to
    [value]. A call that raises leaves the state it had reached. *)
Inductive action : Type :=
  | ReadIndices
  | ReadIndex
  | ReadValue
  | ReadHash
  | Mutate
  | Assign (values : pyvalue).

Definition step (st : t) (a : action) : t :=
  match a with
  | ReadIndices => (indices st).2
  | ReadIndex => (index st).2
  | ReadValue => (_get_value st).2
  | ReadHash => (get_value_hash st).2
  | Mutate => (mutate st).2
  | Assign values => (set_value values st).2
  end.

Definition run (actions : list action) (st : t) : t :=
  foldl step st actions.

(** An assignment that brings as many values as there are repetitions
    (a value that is no sequence is refused by [len] and counts as
    well sized, as does any value when there are no repetitions). *)
Definition well_sized (repetitions : option nat) (a : action) : Prop :=
  match a, repetitions with
  | Assign values, Some n =>
      match py_iter values with
      | Ok vs => length vs = n
      | Raise _ => True
      end
  | _, _ => True
  end.

(** The shape invariant: one weight row per repetition, one column per
    option, and cached indices, if any, one per row and within the
    candidate set. *)
Definition well_formed (repetitions : option nat) (arity : nat) (st : t)
  : Prop :=
  0 < arity
  /\ length (choices st) = arity
  /\ _repetitions st = repetitions
  /\ length <$> weights st = replicate (default 1 repetitions) arity
  /\ match _indices st with
     | None => True
     | Some inds =>
         length inds = default 1 repetitions
         /\ Forall (fun i => 0 <= i < Z.of_nat arity)%Z inds
     end.
End Defs.
End Choice.

(** ** TransitionChoice: the ordered variant *)

Module TransitionChoice.
Section Defs.
Context {P RS : Type} `{Param P RS} `{Collaborators RS}.

Record t : Type := mk {
  choices : list P;
  position : R;
  transitions : list R;
  _frozen : bool;
  random_state : RS
}.

Definition with_choices (content : list P) (st : t) : t :=
  mk content (position st) (transitions st) (_frozen st) (random_state st).

Definition with_position (x : R) (st : t) : t :=
  mk (choices st) x (transitions st) (_frozen st) (random_state st).

Definition with_transitions (tr : list R) (st : t) : t :=
  mk (choices st) (position st) tr (_frozen st) (random_state st).

Definition with_random_state (rs : RS) (st : t) : t :=
  mk (choices st) (position st) (transitions st) (_frozen st) rs.

(** [__init__]: the position is a fresh Scalar, which starts at zero. *)
Definition init (lchoices : list P) (transitions : list R) (rs : RS)
  : result t :=
  match lchoices with
  | [] => Raise EmptyChoices
  | _ => Ok (mk lchoices 0%R transitions false rs)
  end.

(** The [index] property. *)
Definition index (st : t) : Z :=
  threshold_discretization (position st) (length (choices st)).

(** The [indices] property. *)
Definition indices (st : t) : list Z := [index st].

Definition _set_index (index : Z) (st : t) : t :=
  with_position
    (inverse_threshold_discretization index (length (choices st))) st.

Definition _get_value (st : t) : result pyvalue :=
  BaseChoice._get_value (index st) (choices st).

Definition _find_and_set_value (values : pyvalue) (st : t)
  : result (list Z) * t :=
  match BaseChoice._find_and_set_value (_frozen st) [values] (choices st) with
  | (Raise e, content) => (Raise e, with_choices content st)
  | (Ok inds, content) =>
      match inds with
      | i :: _ => (Ok inds, _set_index i (with_choices content st))
      | [] => (Raise IndexError, with_choices content st)
      end
  end.

Definition set_value (values : pyvalue) (st : t) : result unit * t :=
  match _find_and_set_value values st with
  | (Ok _, st') => (Ok tt, st')
  | (Raise e, st') => (Raise e, st')
  end.

(** [probas = np.exp(transitions.value); probas /= np.sum(probas)] *)
Definition step_probabilities (tr : list R) : list R :=
  let e := exp <$> tr in
  (fun x : R => (x / rsum e)%R) <$> e.

(** The two draws of [mutate]: the step magnitude and the direction. *)
Definition draw_step (tr : list R) (rs : RS) : nat * Z * RS :=
  let '(move, rs1) := rs_choice (step_probabilities tr) rs in
  let '(b, rs2) := rs_randint2 rs1 in
  (move, if b then 1%Z else (-1)%Z, rs2).

(** [max(0, min(len(self.choices), self.index + sign * move))] *)
Definition new_index (st : t) (sign : Z) (move : nat) : Z :=
  Z.max 0 (Z.min (Z.of_nat (length (choices st)))
                 (index st + sign * Z.of_nat move)).

Definition mutate (st : t) : result unit * t :=
  let '(tr, rs0) := vector_mutate (transitions st) (random_state st) in
  let st1 := with_random_state rs0 (with_transitions tr st) in
  let '(move, sign, rs) := draw_step tr rs0 in
  let st2 := with_random_state rs st1 in
  let st3 := _set_index (new_index st2 sign move) st2 in
  match BaseChoice.getitem (choices st3) (index st3) with
  | Raise e => (Raise e, st3)
  | Ok c =>
      let '(c', rs') := param_mutate c (random_state st3) in
      (Ok tt,
       with_random_state rs'
         (with_choices (<[Z.to_nat (index st3) := c']> (choices st3)) st3))
  end.

(** [mutate()] called [n] times in a row, whatever each call raises. *)
Fixpoint mutate_n (n : nat) (st : t) : t :=
  match n with
  | 0 => st
  | S n' => mutate_n n' (mutate st).2
  end.

Definition get_value_hash (st : t) : result pyvalue :=
  BaseChoice.get_value_hash (indices st) (choices st).
End Defs.
End TransitionChoice.

(** ** A concrete instance, for examples

    Options are constants or integer scalars; the random source is a
    counter. Constants only take the value they hold, scalars any integer. *)

Module Demo.
Inductive leaf : Type :=
  | Constant (v : pyvalue)
  | Scalar (x : Z).

Definition leaf_set_value (v : pyvalue) (c : leaf) : result unit * leaf :=
  match c with
  | Constant held =>
      if pyvalue_eqb v held then (Ok tt, c) else (Raise OtherError, c)
  | Scalar _ =>
      match v with
      | PInt z => (Ok tt, Scalar z)
      | _ => (Raise OtherError, c)
      end
  end.

Definition leaf_mutate (c : leaf) (rs : nat) : leaf * nat :=
  match c with
  | Constant _ => (c, rs)
  | Scalar x => (Scalar (x + Z.of_nat rs + 1), S rs)
  end.

#[export] Instance leaf_param : Param leaf nat := {|
  param_kind_of c := match c with Constant _ => IsConstant | Scalar _ => IsParameter end;
  param_value c := match c with Constant v => v | Scalar x => PInt x end;
  param_set_value := leaf_set_value;
  param_mutate := leaf_mutate;
  param_value_hash c := match c with Constant v => v | Scalar x => PInt x end
|}.

#[export] Instance counter : Collaborators nat := {|
  rs_choice p rs := (rs mod length p, S rs);
  rs_randint2 rs := (Nat.even rs, S rs);
  array_mutate w rs := ((fun row : list R => (fun x : R => (x + INR rs)%R) <$> row) <$> w, S rs);
  vector_mutate v rs := ((fun x : R => (x + INR rs)%R) <$> v, S rs);
  set_iter := remove_dups;
  weight_for_reset arity := ln (INR arity + 1);
  norm_cdf x := (1 / (1 + exp (- x)))%R;
  norm_ppf p := ln (p / (1 - p))
|}.

Definition abce : list leaf :=
  [Constant (PStr "a"); Constant (PStr "b"); Constant (PStr "c"); Constant (PStr "e")].

(** [Choice(["a", "b", "c", "e"], repetitions=rep)], just constructed. *)
Definition fresh (rep : option nat) : Choice.t :=
  Choice.mk abce
    (replicate (default 1 rep) (replicate 4 0%R)) rep false None false 0.

(** [TransitionChoice(["a", "b", "c", "e"])], just constructed. *)
Definition fresh_transition : TransitionChoice.t :=
  TransitionChoice.mk abce 0%R [1%R; 1%R] false 0.
End Demo.

(** ** Overrides that hand over to the parameter tree *)

(** The tree machinery that [_internal_set_standardized_data] and
    [_internal_spawn_child] call into (core.Dict, Tuple and Array, which are
    not part of the sources). *)
Class Tree (P RS : Type) : Type := {
  (* core.Dict._internal_set_standardized_data on the "choices" and
     "weights" children of the instance, given those of the reference *)
  dict_set_standardized_data :
    list R -> bool -> list P * list (list R) -> list P * list (list R) -> RS ->
    list P * list (list R) * RS;
  (* the values of self.choices.spawn_child()._content, sorted by key *)
  tuple_spawn_child : list P -> list P;
  (* the value of self.weights.spawn_child() *)
  array_spawn_child : list (list R) -> list (list R)
}.

(** The tree keeps the number of candidates and the shape of an Array. *)
Definition tree_keeps_shape `{Tree P RS} : Prop :=
  (forall data d self reference rs,
      length (dict_set_standardized_data data d self reference rs).1.1
      = length self.1
      /\ length <$> (dict_set_standardized_data data d self reference rs).1.2
         = length <$> self.2)
  /\ (forall content : list P, length (tuple_spawn_child content) = length content)
  /\ (forall w : list (list R), length <$> array_spawn_child w = length <$> w).

(** An option reads back the value it has just accepted. *)
Definition set_then_get `{Param P RS} : Prop :=
  forall (v : pyvalue) (c c' : P),
    param_set_value v c = (Ok tt, c') -> param_value c' = v.

(** The inverse threshold discretization is a right inverse of the
    threshold discretization on the valid indices. *)
Definition discretization_round_trip `{Collaborators RS} : Prop :=
  forall (arity : nat) (index : Z),
    (0 <= index < Z.of_nat arity)%Z ->
    threshold_discretization (inverse_threshold_discretization index arity) arity
    = index.

Module ChoiceTree.
Section Defs.
Context {P RS : Type} `{Param P RS} `{Collaborators RS} `{Tree P RS}.

(** [Choice._internal_set_standardized_data]: the parent class updates the
    children, then the indices are drawn again. *)
Definition _internal_set_standardized_data (data : list R)
  (reference : @Choice.t P RS) (deterministic : bool) (st : @Choice.t P RS)
  : @Choice.t P RS :=
  let '(content, w, rs) :=
    dict_set_standardized_data data deterministic
      (Choice.choices st, Choice.weights st)
      (Choice.choices reference, Choice.weights reference)
      (Choice.random_state st) in
  Choice._draw deterministic
    (Choice.with_random_state rs
       (Choice.with_weights w (Choice.with_choices content st))).

(** [Choice._internal_spawn_child]: a new instance over the spawned
    options, with the same flags; its weights are then replaced by the
    spawn of the parent's. [rs] is the random state the child works with. *)
Definition _internal_spawn_child (rs : RS) (st : @Choice.t P RS)
  : result (@Choice.t P RS) :=
  match Choice.init (tuple_spawn_child (Choice.choices st))
          (Choice._repetitions st) (Choice._deterministic st) rs with
  | Raise e => Raise e
  | Ok child =>
      Ok (Choice.with_weights (array_spawn_child (Choice.weights st)) child)
  end.

(** [Choice._get_name], given the name the parent class builds and the
    name of the class. *)
Definition _get_name (name cls : string) (deterministic : bool)
  : result string :=
  if String.prefix cls name
  then Ok (if deterministic
           then String.append cls
                  (String.append "{det}"
                     (substring (String.length cls)
                        (String.length name - String.length cls) name))
           else name)
  else Raise AssertionError.

(** [__len__] *)
Definition __len__ (st : @Choice.t P RS) : nat := length (Choice.choices st).
End Defs.
End ChoiceTree.

Module DemoTree.
Import Demo.

#[export] Instance shifting : Tree leaf nat := {|
  dict_set_standardized_data data d self reference rs :=
    (self.1,
     (fun row : list R => (fun x : R => (x + rsum data)%R) <$> row) <$> self.2,
     if d then rs else S rs);
  tuple_spawn_child content := content;
  array_spawn_child w := w
|}.
End DemoTree.

(** * Properties *)

(** ** BaseChoice: trial assignment *)

Section BaseChoiceFacts.
Context {P RS : Type} `{Param P RS}.
Import BaseChoice.

Lemma lookup_middle (pre : list P) (c : P) (rest : list P) :
  (pre ++ c :: rest) !! length pre = Some c.
Proof. by rewrite list_lookup_middle. Qed.

Lemma insert_middle (pre : list P) (c c' : P) (rest : list P) :
  <[length pre := c']> (pre ++ c :: rest) = pre ++ c' :: rest.
Proof.
  rewrite insert_app_r_alt; [|lia]. by rewrite Nat.sub_diag.
Qed.

(** The loop over the keys, started at key [length pre]: the candidates
    of [mid] all refuse, [c] is the first to accept. *)
Lemma try_candidates_first (value : pyvalue) (mid pre : list P) (c : P)
  (rest : list P) :
  Forall (fun cj => accepts value cj = false) mid ->
  accepts value c = true ->
  BaseChoice.try_candidates value
    (seq (length pre) (length (mid ++ c :: rest))) (pre ++ mid ++ c :: rest)
  = (Ok (Z.of_nat (length pre + length mid)),
     pre ++ (after_attempt value <$> mid) ++ after_attempt value c :: rest).
Proof.
  intros Hmid Hc. revert pre. induction Hmid as [|cj mid Hcj Hmid IH]; intros pre.
  - cbn [app length seq BaseChoice.try_candidates fmap list_fmap].
    rewrite lookup_middle. unfold accepts, after_attempt in *.
    destruct (param_set_value value c) as [[u|e] c']; [|discriminate].
    rewrite insert_middle. do 2 f_equal. lia.
  - cbn [app length seq BaseChoice.try_candidates].
    rewrite lookup_middle. unfold accepts in Hcj.
    destruct (param_set_value value cj) as [[u|e] cj'] eqn:E; [discriminate|].
    rewrite insert_middle.
    specialize (IH (pre ++ [cj'])).
    rewrite length_app in IH. cbn [length] in IH.
    replace (length pre + 1) with (S (length pre)) in IH by lia.
    rewrite <- !(assoc_L (++)) in IH. cbn [app] in IH.
    rewrite IH. cbn [fmap list_fmap app]. unfold after_attempt at 3. rewrite E.
    cbn [snd]. do 2 f_equal. lia.
Qed.

(** No candidate accepts: the index stays at the initial -1. *)
Lemma try_candidates_none (value : pyvalue) (suf pre : list P) :
  Forall (fun cj => accepts value cj = false) suf ->
  BaseChoice.try_candidates value (seq (length pre) (length suf)) (pre ++ suf)
  = (Ok (-1)%Z, pre ++ (after_attempt value <$> suf)).
Proof.
  intros Hsuf. revert pre. induction Hsuf as [|cj suf Hcj Hsuf IH]; intros pre.
  - reflexivity.
  - cbn [length seq BaseChoice.try_candidates].
    rewrite lookup_middle. unfold accepts in Hcj.
    destruct (param_set_value value cj) as [[u|e] cj'] eqn:E; [discriminate|].
    rewrite insert_middle.
    specialize (IH (pre ++ [cj'])).
    rewrite length_app in IH. cbn [length] in IH.
    replace (length pre + 1) with (S (length pre)) in IH by lia.
    rewrite <- !(assoc_L (++)) in IH. cbn [app] in IH.
    rewrite IH. cbn [fmap list_fmap]. unfold after_attempt at 2. by rewrite E.
Qed.

(** Whatever happens, the candidate set keeps its size, and a key that
    is returned is -1 or the key of a candidate. *)
Lemma try_candidates_length (value : pyvalue) (nums : list nat)
  (content : list P) :
  length (BaseChoice.try_candidates value nums content).2 = length content.
Proof.
  revert content. induction nums as [|k nums IH]; intros content; [done|].
  cbn [BaseChoice.try_candidates].
  destruct (content !! k) as [c|]; [|done].
  destruct (param_set_value value c) as [[u|e] c'].
  - cbn. by rewrite length_insert.
  - rewrite IH. by rewrite length_insert.
Qed.

Lemma try_candidates_range (value : pyvalue) (nums : list nat)
  (content : list P) (k : Z) :
  Forall (fun j => j < length content) nums ->
  (BaseChoice.try_candidates value nums content).1 = Ok k ->
  k = (-1)%Z \/ (0 <= k < Z.of_nat (length content))%Z.
Proof.
  intros Hnums. revert content Hnums.
  induction nums as [|j nums IH]; intros content Hnums Hk.
  - cbn in Hk. left. congruence.
  - cbn [BaseChoice.try_candidates] in Hk.
    apply Forall_cons in Hnums as [Hj Hnums].
    destruct (content !! j) as [c|]; [|discriminate].
    destruct (param_set_value value c) as [[u|e] c'].
    + cbn in Hk. right. injection Hk as <-. lia.
    + apply IH in Hk; [|by rewrite length_insert].
      by rewrite length_insert in Hk.
Qed.

Lemma sorted_keys_in_range (content : list P) :
  Forall (fun j => j < length content) (BaseChoice.sorted_keys content).
Proof.
  unfold BaseChoice.sorted_keys. apply Forall_forall. intros j Hj.
  apply elem_of_seq in Hj. lia.
Qed.

Lemma assign_values_ok (values : list pyvalue) (nums : list nat)
  (content content' : list P) (inds : list Z) :
  Forall (fun j => j < length content) nums ->
  BaseChoice.assign_values values nums content = (Ok inds, content') ->
  length inds = length values
  /\ Forall (fun k => 0 <= k < Z.of_nat (length content))%Z inds
  /\ length content' = length content.
Proof.
  revert content content' inds.
  induction values as [|v values IH]; intros content content' inds Hnums Hrun.
  - cbn in Hrun. injection Hrun as <- <-. by repeat split.
  - cbn [BaseChoice.assign_values] in Hrun.
    pose proof (try_candidates_length v nums content) as Hlen.
    pose proof (try_candidates_range v nums content) as Hrange.
    destruct (BaseChoice.try_candidates v nums content) as [[k|e] c1];
      [|discriminate].
    cbn [fst snd] in Hlen, Hrange.
    destruct (Z.eqb_spec k (-1)) as [->|Hk]; [discriminate|].
    destruct (BaseChoice.assign_values values nums c1) as [[ks|e] c2] eqn:E;
      [|discriminate].
    injection Hrun as <- <-.
    apply IH in E as (Hl & Hr & Hc); [|by rewrite Hlen].
    destruct (Hrange k Hnums eq_refl) as [?|Hk']; [done|].
    rewrite Hlen in Hr. repeat split.
    + cbn. by rewrite Hl.
    + by constructor.
    + by rewrite Hc.
Qed.

Lemma assign_values_length (values : list pyvalue) (nums : list nat)
  (content : list P) :
  length (BaseChoice.assign_values values nums content).2 = length content.
Proof.
  revert content. induction values as [|v values IH]; intros content; [done|].
  cbn [BaseChoice.assign_values].
  pose proof (try_candidates_length v nums content) as Hlen.
  destruct (BaseChoice.try_candidates v nums content) as [[k|e] c1]; [|done].
  cbn [snd] in Hlen. destruct (k =? -1)%Z; [done|].
  specialize (IH c1).
  destruct (BaseChoice.assign_values values nums c1) as [[ks|e] c2];
    cbn [snd] in *; congruence.
Qed.

Lemma find_and_set_value_length (frozen : bool) (values : list pyvalue)
  (content : list P) :
  length (BaseChoice._find_and_set_value frozen values content).2
  = length content.
Proof.
  unfold BaseChoice._find_and_set_value.
  destruct frozen; cbn; [done|]. apply assign_values_length.
Qed.

Lemma find_and_set_value_ok (frozen : bool) (values : list pyvalue)
  (content content' : list P) (inds : list Z) :
  BaseChoice._find_and_set_value frozen values content = (Ok inds, content') ->
  length inds = length values
  /\ Forall (fun k => 0 <= k < Z.of_nat (length content))%Z inds
  /\ length content' = length content.
Proof.
  unfold BaseChoice._find_and_set_value. destruct frozen; cbn; [discriminate|].
  apply assign_values_ok, sorted_keys_in_range.
Qed.
Lemma find_and_set_value_single (value : pyvalue) (content : list P) :
  _find_and_set_value false [value] content
  = match try_candidates value (sorted_keys content) content with
    | (Ok k, content1) =>
        if (k =? -1)%Z then (Raise NoMatchingCandidate, content1)
        else (Ok [k], content1)
    | (Raise e, content1) => (Raise e, content1)
    end.
Proof.
  unfold _find_and_set_value. cbn.
  destruct (try_candidates value (sorted_keys content) content) as [[k|e] c1];
    [|done].
  by destruct (k =? -1)%Z.
Qed.

(** C5: [set_value] tries the candidates in ascending key order for each
    value. The first candidate that accepts fixes the index of the value
    and the candidates after it are left as they were; the failures of
    the candidates before it are swallowed. If no candidate accepts, the
    call raises the no-matching-candidate error. The values of a list
    are resolved one after the other in this way. *)
Theorem find_and_set_value_first_candidate :
  (forall (value : pyvalue) (content : list P) (k : nat) (c : P),
      content !! k = Some c ->
      accepts value c = true ->
      (forall j cj, j < k -> content !! j = Some cj ->
                    accepts value cj = false) ->
      _find_and_set_value false [value] content
      = (Ok [Z.of_nat k],
         (after_attempt value <$> take k content)
           ++ after_attempt value c :: drop (S k) content))
  /\ (forall (value : pyvalue) (content : list P),
      (forall j cj, content !! j = Some cj -> accepts value cj = false) ->
      _find_and_set_value false [value] content
      = (Raise NoMatchingCandidate, after_attempt value <$> content))
  /\ (forall (value : pyvalue) (rest : list pyvalue) (content : list P),
      _find_and_set_value false (value :: rest) content
      = match _find_and_set_value false [value] content with
        | (Ok ks, content1) =>
            match _find_and_set_value false rest content1 with
            | (Ok ks', content2) => (Ok (ks ++ ks'), content2)
            | (Raise e, content2) => (Raise e, content2)
            end
        | (Raise e, content1) => (Raise e, content1)
        end).
Proof.
  split; [|split].
  - intros value content k c Hk Hc Hbefore.
    rewrite find_and_set_value_single.
    pose proof (take_drop_middle content k c Hk) as Hsplit.
    assert (Hmid : Forall (fun cj => accepts value cj = false) (take k content)).
    { apply Forall_lookup. intros j cj Hj.
      apply lookup_take_Some in Hj as [Hj Hlt]. by apply (Hbefore j). }
    pose proof (try_candidates_first value (take k content) [] c
                  (drop (S k) content) Hmid Hc) as Hrun.
    cbn [app length] in Hrun. rewrite Hsplit in Hrun.
    unfold sorted_keys. rewrite Hrun.
    rewrite length_take_le by (apply lookup_lt_Some in Hk; lia).
    cbn [Nat.add].
    destruct (Z.eqb_spec (Z.of_nat k) (-1)) as [Hneg|_]; [lia|done].
  - intros value content Hall.
    rewrite find_and_set_value_single.
    assert (Hsuf : Forall (fun cj => accepts value cj = false) content).
    { apply Forall_lookup. intros j cj Hj. by apply (Hall j). }
    pose proof (try_candidates_none value content [] Hsuf) as Hrun.
    cbn [app length] in Hrun. unfold sorted_keys. by rewrite Hrun.
  - intros value rest content.
    rewrite find_and_set_value_single.
    unfold _find_and_set_value at 1. cbn [_check_frozen assign_values].
    pose proof (try_candidates_length value (sorted_keys content) content)
      as Hlen.
    destruct (try_candidates value (sorted_keys content) content)
      as [[k|e] c1]; [|done].
    cbn [snd] in Hlen. destruct (k =? -1)%Z; [done|].
    unfold _find_and_set_value, sorted_keys. cbn [_check_frozen].
    rewrite Hlen.
    by destruct (assign_values rest (seq 0 (length content)) c1) as [[ks|e] c2].
Qed.

Lemma getitem_lookup (content : list P) (k : nat) :
  getitem content (Z.of_nat k)
  = match content !! k with Some c => Ok c | None => Raise KeyError end.
Proof.
  unfold getitem. destruct (Z.ltb_spec (Z.of_nat k) 0); [lia|].
  by rewrite Nat2Z.id.
Qed.

Lemma getitem_ok (content : list P) (ind : Z) (c : P) :
  getitem content ind = Ok c ->
  (0 <= ind)%Z /\ content !! Z.to_nat ind = Some c.
Proof.
  unfold getitem. destruct (Z.ltb_spec ind 0); [discriminate|].
  destruct (content !! Z.to_nat ind); [|discriminate].
  intros [= ->]. split; [lia|done].
Qed.

Lemma getitem_in_range (content : list P) (ind : Z) :
  (0 <= ind < Z.of_nat (length content))%Z ->
  exists c, getitem content ind = Ok c /\ content !! Z.to_nat ind = Some c.
Proof.
  intros Hind. unfold getitem. destruct (Z.ltb_spec ind 0); [lia|].
  destruct (content !! Z.to_nat ind) as [c|] eqn:E; [by exists c|].
  apply lookup_ge_None in E. lia.
Qed.

Lemma hash_entries_length (indices : list Z) (content : list P)
  (hashes : list pyvalue) :
  hash_entries indices content = Ok hashes -> length hashes = length indices.
Proof.
  revert hashes. induction indices as [|ind indices IH]; intros hashes.
  - cbn. by intros [= <-].
  - cbn [hash_entries]. destruct (getitem content ind); [|discriminate].
    destruct (hash_entries indices content) as [hs|]; [|discriminate].
    intros [= <-]. cbn. by rewrite (IH hs).
Qed.

End BaseChoiceFacts.

(** ** Choice *)

Section ChoiceFacts.
Context {P RS : Type} `{Param P RS} `{Collaborators RS}.

Local Abbreviation choice := (@Choice.t P RS).
Local Abbreviation transition_choice := (@TransitionChoice.t P RS).

Lemma with_choices_same (st : choice) :
  Choice.with_choices (Choice.choices st) st = st.
Proof. by destruct st. Qed.

Lemma transition_with_choices_same (st : transition_choice) :
  TransitionChoice.with_choices (TransitionChoice.choices st) st = st.
Proof. by destruct st. Qed.

(** C6: on a frozen instance [set_value] raises before any candidate is
    tried: the whole state (candidates, weight or position backing,
    cached indices, hence [value]) is the one before the call. *)
Theorem set_value_frozen_unchanged :
  (forall (values : pyvalue) (st : choice),
      Choice._frozen st = true ->
      Choice.set_value values st = (Raise Frozen, st))
  /\ (forall (values : pyvalue) (st : transition_choice),
      TransitionChoice._frozen st = true ->
      TransitionChoice.set_value values st = (Raise Frozen, st)).
Proof.
  split; intros values st Hfrozen.
  - unfold Choice.set_value, Choice._find_and_set_value.
    unfold BaseChoice._find_and_set_value. rewrite Hfrozen.
    cbn [BaseChoice._check_frozen].
    destruct (Choice._repetitions st); [destruct (py_iter values)|];
      by rewrite ?with_choices_same.
  - unfold TransitionChoice.set_value, TransitionChoice._find_and_set_value.
    unfold BaseChoice._find_and_set_value. rewrite Hfrozen.
    cbn [BaseChoice._check_frozen]. by rewrite transition_with_choices_same.
Qed.

(** With a single weight row the whole-matrix normalisation of
    [probabilities] is the softmax of that row. *)
Lemma probabilities_one_row (st : choice) (row : list R) :
  Choice.weights st = [row] ->
  Choice.probabilities st = [row_softmax row].
Proof.
  intros Hw. unfold Choice.probabilities, row_softmax. rewrite Hw.
  cbn [fmap list_fmap rsum foldr]. f_equal.
  rewrite <- list_fmap_compose. apply list_fmap_ext. intros i x _. cbn.
  f_equal. unfold rsum. lra.
Qed.
End ChoiceFacts.

(** C1: on [Choice(["a", "b", "c", "e"], repetitions=2)] with its initial
    zero weights, [probabilities] is 1/8 everywhere, while the softmax of
    each weight row is 1/4 everywhere: the sum that normalises runs over
    the whole matrix, not over the row. *)
Theorem probabilities_two_rows :
  Choice.probabilities (Demo.fresh (Some 2))
  = replicate 2 (replicate 4 (1 / 8)%R)
  /\ row_softmax <$> Choice.weights (Demo.fresh (Some 2))
     = replicate 2 (replicate 4 (1 / 4)%R).
Proof.
  unfold Choice.probabilities, row_softmax, rsum.
  cbn. rewrite exp_0. split; repeat f_equal; lra.
Qed.

(** ** Choice: the weights after an assignment *)

Section ResetFacts.
Context {P RS : Type} `{Param P RS} `{Collaborators RS}.

Local Abbreviation choice := (@Choice.t P RS).

Lemma vadd_zeros (zs row : list R) :
  length zs = length row ->
  Forall (fun z => z = 0%R) zs ->
  vadd zs row = row.
Proof.
  revert row. induction zs as [|z zs IH]; intros [|x row] Hlen Hzs;
    cbn in *; try done.
  apply Forall_cons in Hzs as [-> Hzs]. f_equal; [lra|].
  apply IH; [lia|done].
Qed.

Lemma madd_lookup (a b : list (list R)) (r : nat) :
  madd a b !! r
  = match a !! r, b !! r with
    | Some x, Some y => Some (vadd x y)
    | _, _ => None
    end.
Proof.
  revert b r. induction a as [|x a IH]; intros [|y b] [|r]; cbn; try done;
    first [by destruct (a !! r) | apply IH].
Qed.

(** What the fancy-indexed assignment leaves in each row, and that every
    index it was given addresses a cell of the matrix. *)
Lemma fancy_assign_ok (coeff : R) (indices : list Z) (i : nat)
  (out out' : list (list R)) :
  fancy_assign coeff i indices out = Ok out' ->
  (forall r,
      out' !! r
      = if decide (i <= r)
        then match indices !! (r - i) with
             | Some ind => <[Z.to_nat ind := coeff]> <$> out !! r
             | None => out !! r
             end
        else out !! r)
  /\ (forall k ind, indices !! k = Some ind ->
        exists row, out !! (i + k) = Some row
                    /\ (0 <= ind < Z.of_nat (length row))%Z).
Proof.
  revert i out. induction indices as [|ind rest IH]; intros i out Hrun.
  - cbn in Hrun. injection Hrun as <-. split.
    + intros r. by destruct (decide (i <= r)).
    + intros k ind' Hk. by rewrite lookup_nil in Hk.
  - cbn [fancy_assign] in Hrun.
    destruct (out !! i) as [row|] eqn:Hrow; [|discriminate].
    destruct ((ind <? 0)%Z || (Z.of_nat (length row) <=? ind)%Z) eqn:Hbad;
      [discriminate|].
    apply orb_false_iff in Hbad as [Hlo Hhi].
    apply Z.ltb_ge in Hlo. apply Z.leb_gt in Hhi.
    apply IH in Hrun as [Hrows Hcells]. split.
    + intros r. rewrite Hrows.
      destruct (decide (S i <= r)) as [Hr|Hr].
      * rewrite decide_True by lia.
        replace (r - i) with (S (r - S i)) by lia. cbn [lookup list_lookup].
        rewrite list_lookup_insert_ne by lia. done.
      * destruct (decide (i <= r)) as [Hr'|Hr'].
        -- assert (r = i) as -> by lia. rewrite Nat.sub_diag. cbn.
           rewrite list_lookup_insert_eq by (by apply lookup_lt_Some in Hrow).
           by rewrite Hrow.
        -- apply list_lookup_insert_ne. lia.
    + intros [|k] ind' Hk.
      * cbn in Hk. injection Hk as <-. exists row.
        rewrite Nat.add_0_r. split; [done|lia].
      * cbn in Hk. destruct (Hcells k ind' Hk) as (row' & Hrow' & Hin).
        rewrite list_lookup_insert_ne in Hrow' by lia.
        exists row'. split; [|done].
        by replace (i + S k) with (S i + k) by lia.
Qed.

Lemma insert_zero_row (coeff : R) (row : list R) (k : nat) (o : option Z) :
  (o = Some (Z.of_nat k) /\ k < length row) \/ o = None ->
  match o with
  | Some ind => <[Z.to_nat ind := coeff]> ((fun _ : R => 0%R) <$> row)
  | None => (fun _ : R => 0%R) <$> row
  end
  = (fun j : nat => if decide (o = Some (Z.of_nat j)) then coeff else 0%R)
      <$> seq 0 (length row).
Proof.
  intros Ho. apply list_eq. intros j.
  rewrite list_lookup_fmap.
  destruct (decide (j < length row)) as [Hj|Hj].
  - rewrite lookup_seq_lt by done. cbn.
    destruct (lookup_lt_is_Some_2 row j Hj) as [x Hx].
    destruct Ho as [[-> Hk]| ->].
    + rewrite Nat2Z.id, list_lookup_insert, length_fmap, list_lookup_fmap, Hx.
      cbn. destruct (decide (k = j)) as [->|Hne].
      * by rewrite !decide_True by done.
      * rewrite decide_False by tauto.
        rewrite decide_False; [done|]. intros [= Heq]. lia.
    + by rewrite list_lookup_fmap, Hx.
  - rewrite (proj2 (lookup_ge_None (seq 0 (length row)) j))
      by (rewrite length_seq; lia).
    cbn. apply lookup_ge_None.
    destruct o; rewrite ?length_insert, length_fmap; lia.
Qed.

(** The reset of the weights, once the indices are resolved. *)
Lemma reset_weights_ok (inds : list Z) (st st' : choice) :
  Choice.reset_weights inds st = (Ok tt, st') ->
  Choice._indices st' = Some inds
  /\ Choice.weights st'
     = reset_matrix (weight_for_reset (ncols (Choice.weights st))) inds
         (length <$> Choice.weights st)
  /\ Choice.choices st' = Choice.choices st
  /\ Choice._repetitions st' = Choice._repetitions st.
Proof.
  unfold Choice.reset_weights. intros Hrun.
  cbn [Choice.with_choices Choice.with_indices Choice.with_weights
       Choice.weights Choice.choices Choice._indices] in Hrun.
  set (w := Choice.weights st) in *.
  set (coeff := weight_for_reset (ncols w)) in *.
  destruct (fancy_assign coeff 0 inds (zeros_like w)) as [out|e] eqn:Hout;
    [|discriminate].
  injection Hrun as <-. cbn. split; [done|]. split; [|done].
  apply fancy_assign_ok in Hout as [Hrows Hcells].
  unfold array_set_standardized_data, reset_matrix. apply list_eq. intros r.
  rewrite madd_lookup, list_lookup_imap, list_lookup_fmap, Hrows.
  rewrite decide_True by lia. rewrite Nat.sub_0_r.
  unfold zeros_like. rewrite list_lookup_fmap.
  destruct (w !! r) as [row|] eqn:Hrow; [|done]. cbn [fmap option_fmap option_map].
  assert (Hcase : (exists k, inds !! r = Some (Z.of_nat k) /\ k < length row)
                  \/ inds !! r = None).
  { destruct (inds !! r) as [ind|] eqn:Hind; [left|by right].
    destruct (Hcells r ind Hind) as (row' & Hrow' & Hin).
    unfold zeros_like in Hrow'. cbn in Hrow'.
    rewrite list_lookup_fmap, Hrow in Hrow'. injection Hrow' as <-.
    rewrite length_fmap in Hin. exists (Z.to_nat ind).
    split; [f_equal|]; lia. }
  assert (Hrow' :
    match inds !! r with
    | Some ind => <[Z.to_nat ind := coeff]> ((fun _ : R => 0%R) <$> row)
    | None => (fun _ : R => 0%R) <$> row
    end
    = (fun j : nat =>
         if decide (inds !! r = Some (Z.of_nat j)) then coeff else 0%R)
        <$> seq 0 (length row)).
  { destruct Hcase as [(k & Hk & Hlt)|Hnone].
    - apply (insert_zero_row coeff row k). by left.
    - apply (insert_zero_row coeff row 0). by right. }
  rewrite <- Hrow'.
  destruct (inds !! r) as [ind|]; cbn; f_equal; apply vadd_zeros;
    rewrite ?length_insert; try done;
    try (apply Forall_forall; intros z Hz).
  - apply list_elem_of_fmap in Hz as (x & -> & _). done.
  - apply list_elem_of_fmap in Hz as (x & -> & _). done.
Qed.

Lemma reset_matrix_shape (coeff : R) (inds : list Z) (shape : list nat) :
  length <$> reset_matrix coeff inds shape = shape.
Proof.
  unfold reset_matrix. apply list_eq. intros r.
  rewrite list_lookup_fmap, list_lookup_imap.
  destruct (shape !! r) as [n|]; [|done]. cbn.
  by rewrite length_fmap, length_seq.
Qed.

Lemma zeros_like_shape (w : list (list R)) :
  length <$> zeros_like w = length <$> w.
Proof.
  unfold zeros_like. rewrite <- list_fmap_compose.
  apply list_fmap_ext. intros i row _. cbn. by rewrite length_fmap.
Qed.

(** However the reset ends, the indices are recorded first and the
    weights keep their shape. *)
Lemma reset_weights_shape (inds : list Z) (st st' : choice) (r : result unit) :
  Choice.reset_weights inds st = (r, st') ->
  Choice._indices st' = Some inds
  /\ length <$> Choice.weights st' = length <$> Choice.weights st
  /\ Choice.choices st' = Choice.choices st
  /\ Choice._repetitions st' = Choice._repetitions st.
Proof.
  intros Hrun. destruct r as [[]|e].
  - apply reset_weights_ok in Hrun as (Hi & Hw & Hc & Hr).
    by rewrite Hw, reset_matrix_shape.
  - unfold Choice.reset_weights in Hrun.
    destruct (fancy_assign _ _ _ _); [discriminate|].
    injection Hrun as _ <-. cbn. by rewrite zeros_like_shape.
Qed.

(** C4: a successful [set_value] on a [Choice] records the indices
    resolved by the trial assignment and leaves as weights the matrix
    that is zero everywhere except [weight_for_reset(arity)] in the drawn
    column of each row that has a drawn index. That matrix is a function
    of the indices, the arity and the shape alone: the previous weight
    values do not enter it. *)
Theorem set_value_resets_weights (values : pyvalue) (st st' : choice)
  (inds : list Z) :
  Choice._find_and_set_value values st = (Ok inds, st') ->
  Choice._indices st' = Some inds
  /\ Choice.weights st'
     = reset_matrix (weight_for_reset (ncols (Choice.weights st))) inds
         (length <$> Choice.weights st)
  /\ exists vs,
      BaseChoice._find_and_set_value false vs (Choice.choices st)
      = (Ok inds, Choice.choices st').
Proof.
  unfold Choice._find_and_set_value. intros Hrun.
  set (lvalues := match Choice._repetitions st with
                  | Some _ => py_iter values
                  | None => Ok [values]
                  end) in Hrun.
  destruct lvalues as [vs|e];
    [|by destruct (BaseChoice._check_frozen (Choice._frozen st))].
  destruct (Choice._frozen st) eqn:Hfrozen; [discriminate|].
  destruct (BaseChoice._find_and_set_value false vs (Choice.choices st))
    as [[inds0|e] content] eqn:Hbase; [|discriminate].
  destruct (Choice.reset_weights inds0 (Choice.with_choices content st))
    as [[[]|e] st1] eqn:Hreset; [|discriminate].
  injection Hrun as <- <-.
  apply reset_weights_ok in Hreset as (Hi & Hw & Hc & _). cbn in Hw, Hc.
  split; [done|]. split; [done|]. exists vs. by rewrite Hc.
Qed.
End ResetFacts.

(** ** Choice: mutation *)

Section MutateFacts.
Context {P RS : Type} `{Param P RS} `{Collaborators RS}.

Local Abbreviation choice := (@Choice.t P RS).

(** The loop over the drawn indices touches the candidates and the random
    state only, and among the candidates only those it visits. *)
Lemma mutate_each_frame (inds : list Z) (st st' : choice) (r : result unit) :
  Choice.mutate_each inds st = (r, st') ->
  Choice.weights st' = Choice.weights st
  /\ Choice._indices st' = Choice._indices st
  /\ Choice._repetitions st' = Choice._repetitions st
  /\ Choice._deterministic st' = Choice._deterministic st
  /\ length (Choice.choices st') = length (Choice.choices st)
  /\ forall k, Z.of_nat k ∉ inds ->
               Choice.choices st' !! k = Choice.choices st !! k.
Proof.
  revert st. induction inds as [|ind inds IH]; intros st Hrun.
  - cbn in Hrun. by injection Hrun as _ <-.
  - cbn [Choice.mutate_each] in Hrun.
    destruct (BaseChoice.getitem (Choice.choices st) ind) as [c|e] eqn:Hc.
    2:{ by injection Hrun as _ <-. }
    destruct (param_mutate c (Choice.random_state st)) as [c' rs].
    apply IH in Hrun as (Hw & Hi & Hr & Hd & Hl & Hframe). cbn in *.
    rewrite length_insert in Hl. repeat split; try done.
    intros k Hk. apply not_elem_of_cons in Hk as [Hne Hk].
    rewrite (Hframe k Hk). apply list_lookup_insert_ne.
    apply getitem_ok in Hc as [Hpos _]. lia.
Qed.

(** When the loop runs to its end over distinct indices, every index it
    was given has had its option mutated, once. *)
Lemma mutate_each_hit (inds : list Z) (st st' : choice) :
  NoDup inds ->
  Choice.mutate_each inds st = (Ok tt, st') ->
  forall ind, ind ∈ inds ->
    exists c rs, BaseChoice.getitem (Choice.choices st) ind = Ok c
                 /\ Choice.choices st' !! Z.to_nat ind
                    = Some (param_mutate c rs).1.
Proof.
  intros Hnodup. revert st.
  induction Hnodup as [|ind0 inds Hnotin Hnodup IH]; intros st Hrun ind Hin.
  - by apply elem_of_nil in Hin.
  - cbn [Choice.mutate_each] in Hrun.
    destruct (BaseChoice.getitem (Choice.choices st) ind0) as [c|e] eqn:Hc;
      [|discriminate].
    destruct (param_mutate c (Choice.random_state st)) as [c' rs] eqn:Hmut.
    pose proof (getitem_ok _ _ _ Hc) as [Hpos Hlook].
    apply elem_of_cons in Hin as [->|Hin].
    + exists c, (Choice.random_state st). split; [done|].
      apply mutate_each_frame in Hrun as (_ & _ & _ & _ & _ & Hframe).
      cbn in Hframe. rewrite (Hframe (Z.to_nat ind0)).
      * rewrite Hmut. apply list_lookup_insert_eq.
        by apply lookup_lt_Some in Hlook.
      * by rewrite Z2Nat.id.
    + destruct (IH _ Hrun ind Hin) as (c1 & rs1 & Hc1 & Hafter). cbn in Hc1.
      exists c1, rs1. split; [|done].
      apply getitem_ok in Hc1 as [Hpos1 Hlook1].
      rewrite list_lookup_insert_ne in Hlook1.
      * unfold BaseChoice.getitem. rewrite Hlook1.
        by destruct (Z.ltb_spec ind 0); [lia|].
      * intros Heq. apply Hnotin.
        replace ind0 with ind by lia. done.
Qed.

Lemma draw_indices (deterministic : bool) (st : choice) :
  Choice._indices (Choice._draw deterministic st)
  = Some (encode (deterministic || Choice._deterministic st)
            (Choice.weights st) (Choice.random_state st)).1
  /\ Choice.weights (Choice._draw deterministic st) = Choice.weights st
  /\ Choice.choices (Choice._draw deterministic st) = Choice.choices st
  /\ Choice._repetitions (Choice._draw deterministic st)
     = Choice._repetitions st
  /\ Choice._deterministic (Choice._draw deterministic st)
     = Choice._deterministic st.
Proof.
  unfold Choice._draw.
  by destruct (encode (deterministic || Choice._deterministic st)
                 (Choice.weights st) (Choice.random_state st)).
Qed.

End MutateFacts.

(** ** Choice: the shape invariant *)

Section InvariantFacts.
Context {P RS : Type} `{Param P RS} `{Collaborators RS}.

Local Abbreviation choice := (@Choice.t P RS).

Lemma argmax_from_range (row : list R) (best : R) (besti i : nat) :
  argmax_from best besti i row = besti
  \/ i <= argmax_from best besti i row < i + length row.
Proof.
  revert best besti i. induction row as [|w row IH]; intros best besti i.
  - by left.
  - cbn [argmax_from length]. destruct (Rlt_dec best w).
    + right. destruct (IH w i (S i)) as [->|?]; lia.
    + destruct (IH best besti (S i)) as [->|?]; [by left|right; lia].
Qed.

Lemma argmax_lt (row : list R) : row <> [] -> argmax row < length row.
Proof.
  destruct row as [|w row]; [done|]. intros _. cbn [argmax length].
  destruct (argmax_from_range row w 0 1) as [->|?]; lia.
Qed.

Lemma encode_row_lt (deterministic : bool) (row : list R) (rs : RS) :
  choice_in_range -> row <> [] ->
  (encode_row deterministic row rs).1 < length row.
Proof.
  intros Hchoice Hrow. unfold encode_row. destruct deterministic.
  - by apply argmax_lt.
  - assert (Hlen : length (softmax row) = length row).
    { unfold softmax. by rewrite !length_fmap. }
    rewrite <- Hlen. apply Hchoice. intros Hnil.
    rewrite Hnil in Hlen. by destruct row.
Qed.

(** The encoder returns one index per row, and the index of a row is the
    decoding of that row alone. *)
Lemma encode_rows (deterministic : bool) (w : list (list R)) (rs : RS) :
  length (encode deterministic w rs).1 = length w
  /\ forall r row, w !! r = Some row ->
       exists rs_r, (encode deterministic w rs).1 !! r
                    = Some (Z.of_nat (encode_row deterministic row rs_r).1).
Proof.
  revert rs. induction w as [|row0 w IH]; intros rs.
  - split; [done|]. intros r row Hr. by rewrite lookup_nil in Hr.
  - cbn [encode].
    destruct (encode_row deterministic row0 rs) as [j rs1] eqn:Hj.
    destruct (IH rs1) as [Hlen Hrows].
    destruct (encode deterministic w rs1) as [js rs2]. cbn in *.
    split; [by rewrite Hlen|].
    intros [|r] row Hr; cbn in *.
    + injection Hr as <-. exists rs. by rewrite Hj.
    + by apply Hrows.
Qed.

Lemma encode_in_range (deterministic : bool) (arity n : nat)
  (w : list (list R)) (rs : RS) :
  choice_in_range -> 0 < arity ->
  length <$> w = replicate n arity ->
  length (encode deterministic w rs).1 = n
  /\ Forall (fun i => 0 <= i < Z.of_nat arity)%Z (encode deterministic w rs).1.
Proof.
  intros Hchoice Harity Hshape.
  destruct (encode_rows deterministic w rs) as [Hlen Hrows].
  assert (Hn : length w = n).
  { by rewrite <- (length_fmap length w), Hshape, length_replicate. }
  split; [lia|]. apply Forall_lookup. intros r ind Hind.
  destruct (lookup_lt_is_Some_2 w r) as [row Hrow].
  { apply lookup_lt_Some in Hind. lia. }
  destruct (Hrows r row Hrow) as [rs_r Hr]. rewrite Hr in Hind.
  injection Hind as <-.
  assert (Hk : length row = arity).
  { assert (Hl : (length <$> w) !! r = Some (length row))
      by by rewrite list_lookup_fmap, Hrow.
    rewrite Hshape in Hl. by apply lookup_replicate in Hl as [-> _]. }
  pose proof (encode_row_lt deterministic row rs_r Hchoice) as Hlt.
  rewrite Hk in Hlt. assert (row <> []) by (intros ->; cbn in Hk; lia).
  specialize (Hlt ltac:(done)). lia.
Qed.

Lemma draw_well_formed (rep : option nat) (arity : nat) (d : bool)
  (st : choice) :
  choice_in_range ->
  Choice.well_formed rep arity st ->
  Choice.well_formed rep arity (Choice._draw d st).
Proof.
  intros Hchoice (Harity & Hlen & Hrep & Hshape & _).
  destruct (draw_indices d st) as (Hi & Hw & Hc & Hr & _).
  unfold Choice.well_formed. rewrite Hi, Hw, Hc, Hr.
  repeat split; try done;
    by apply (encode_in_range _ arity (default 1 rep)).
Qed.

(** Reading [indices] draws if nothing is cached; what it returns is what
    is cached afterwards. *)
Lemma indices_well_formed (rep : option nat) (arity : nat) (st : choice) :
  choice_in_range ->
  Choice.well_formed rep arity st ->
  Choice.well_formed rep arity (Choice.indices st).2
  /\ Choice._indices (Choice.indices st).2 = Some (Choice.indices st).1
  /\ Choice.choices (Choice.indices st).2 = Choice.choices st
  /\ length (Choice.indices st).1 = default 1 rep
  /\ Forall (fun i => 0 <= i < Z.of_nat arity)%Z (Choice.indices st).1.
Proof.
  intros Hchoice Hwf. unfold Choice.indices.
  destruct (Choice._indices st) as [inds|] eqn:Hinds; cbn [fst snd].
  - pose proof Hwf as (? & ? & ? & ? & Hi). rewrite Hinds in Hi.
    destruct Hi. split; [exact Hwf|]. by repeat split.
  - pose proof (draw_well_formed rep arity (Choice._deterministic st) st
                  Hchoice Hwf) as Hwf'.
    destruct (draw_indices (Choice._deterministic st) st)
      as (Hi & _ & Hc & _).
    pose proof Hwf' as (_ & _ & _ & _ & Hi').
    rewrite Hi in Hi' |- *. cbn. destruct Hi'.
    split; [exact Hwf'|]. by repeat split.
Qed.

Lemma index_state (st : choice) : (Choice.index st).2 = (Choice.indices st).2.
Proof.
  unfold Choice.index. destruct (Choice.indices st) as [inds st'].
  by destruct (length inds =? 1).
Qed.

Lemma get_value_state (st : choice) :
  (Choice._get_value st).2 = (Choice.indices st).2.
Proof.
  unfold Choice._get_value. destruct (Choice._repetitions st).
  - destruct (Choice.indices st) as [inds st'].
    by destruct (Choice.values_at inds (Choice.choices st')).
  - rewrite <- index_state. by destruct (Choice.index st) as [[i|e] st'].
Qed.

Lemma get_value_hash_state (st : choice) :
  (Choice.get_value_hash st).2 = (Choice.indices st).2.
Proof.
  unfold Choice.get_value_hash. by destruct (Choice.indices st).
Qed.

Lemma mutate_well_formed (rep : option nat) (arity : nat) (st : choice) :
  choice_in_range -> mutate_keeps_shape ->
  Choice.well_formed rep arity st ->
  Choice.well_formed rep arity (Choice.mutate st).2.
Proof.
  intros Hchoice Hkeep (Harity & Hlen & Hrep & Hshape & Hi).
  unfold Choice.mutate.
  pose proof (Hkeep (Choice.weights st) (Choice.random_state st)) as Hw.
  destruct (array_mutate (Choice.weights st) (Choice.random_state st))
    as [w rs]. cbn [fst] in Hw.
  set (st1 := Choice.with_random_state rs (Choice.with_weights w st)).
  assert (Hwf1 : Choice.well_formed rep arity st1).
  { repeat split; try done. cbn. by rewrite Hw. }
  pose proof (draw_well_formed rep arity (Choice._deterministic st1) st1
                Hchoice Hwf1) as Hwf2.
  pose proof (indices_well_formed rep arity _ Hchoice Hwf2)
    as (Hwf3 & _).
  destruct (Choice.indices (Choice._draw (Choice._deterministic st1) st1))
    as [inds st3]. cbn [snd] in Hwf3.
  destruct (Choice.mutate_each (set_iter inds) st3) as [r st4] eqn:Hloop.
  apply mutate_each_frame in Hloop as (Hw4 & Hi4 & Hr4 & _ & Hl4 & _).
  destruct Hwf3 as (? & ? & ? & ? & ?).
  unfold Choice.well_formed. cbn [snd]. rewrite Hw4, Hi4, Hr4, Hl4.
  by repeat split.
Qed.

Lemma set_value_well_formed (rep : option nat) (arity : nat)
  (values : pyvalue) (st : choice) :
  Choice.well_sized rep (Choice.Assign values) ->
  Choice.well_formed rep arity st ->
  Choice.well_formed rep arity (Choice.set_value values st).2.
Proof.
  intros Hsized Hwf. pose proof Hwf as (Harity & Hlen & Hrep & Hshape & Hi).
  unfold Choice.set_value, Choice._find_and_set_value. rewrite Hrep.
  assert (Hvs : forall vs,
    match rep with Some _ => py_iter values | None => Ok [values] end = Ok vs ->
    length vs = default 1 rep).
  { intros vs Hvs. destruct rep as [n|]; cbn in *.
    - by rewrite Hvs in Hsized.
    - by injection Hvs as <-. }
  destruct (match rep with Some _ => py_iter values | None => Ok [values] end)
    as [vs|e].
  2:{ by destruct (BaseChoice._check_frozen (Choice._frozen st)). }
  specialize (Hvs vs eq_refl).
  pose proof (find_and_set_value_length (Choice._frozen st) vs
                (Choice.choices st)) as Hcontent.
  destruct (BaseChoice._find_and_set_value (Choice._frozen st) vs
              (Choice.choices st)) as [[inds|e] content] eqn:Hbase;
    cbn [snd] in Hcontent.
  - apply find_and_set_value_ok in Hbase as (Hl & Hrange & _).
    destruct (Choice.reset_weights inds (Choice.with_choices content st))
      as [r st'] eqn:Hreset.
    apply reset_weights_shape in Hreset as (Hi' & Hw' & Hc' & Hr').
    cbn in Hw', Hc', Hr'.
    assert (Choice.well_formed rep arity st').
    { unfold Choice.well_formed. rewrite Hi', Hw', Hc', Hr', Hcontent.
      rewrite Hlen in Hrange. repeat split; try done. congruence. }
    by destruct r.
  - cbn. unfold Choice.well_formed. cbn. by rewrite Hcontent.
Qed.

Lemma step_well_formed (rep : option nat) (arity : nat) (a : Choice.action)
  (st : choice) :
  choice_in_range -> mutate_keeps_shape ->
  Choice.well_sized rep a ->
  Choice.well_formed rep arity st ->
  Choice.well_formed rep arity (Choice.step st a).
Proof.
  intros Hchoice Hkeep Hsized Hwf. destruct a; cbn [Choice.step].
  - by apply indices_well_formed.
  - rewrite index_state. by apply indices_well_formed.
  - rewrite get_value_state. by apply indices_well_formed.
  - rewrite get_value_hash_state. by apply indices_well_formed.
  - by apply mutate_well_formed.
  - by apply set_value_well_formed.
Qed.

Lemma run_well_formed (rep : option nat) (arity : nat)
  (actions : list Choice.action) (st : choice) :
  choice_in_range -> mutate_keeps_shape ->
  Forall (Choice.well_sized rep) actions ->
  Choice.well_formed rep arity st ->
  Choice.well_formed rep arity (Choice.run actions st).
Proof.
  intros Hchoice Hkeep Hsized. revert st.
  induction Hsized as [|a actions Ha Hsized IH]; intros st Hwf; [done|].
  cbn. apply IH. by apply step_well_formed.
Qed.

Lemma init_well_formed (lchoices : list P) (rep : option nat) (det : bool)
  (rs : RS) (st0 : choice) :
  Choice.init lchoices rep det rs = Ok st0 ->
  Choice.well_formed rep (length lchoices) st0.
Proof.
  unfold Choice.init. destruct lchoices as [|c lchoices]; [discriminate|].
  intros [= <-]. unfold Choice.well_formed. cbn [Choice.choices
    Choice.weights Choice._repetitions Choice._indices].
  repeat split; try done; [cbn; lia|].
  rewrite fmap_replicate. cbn [length]. rewrite length_replicate.
  by destruct rep.
Qed.
End InvariantFacts.

(** ** Choice: what mutation does to the options *)

Section MutateDrawnFacts.
Context {P RS : Type} `{Param P RS} `{Collaborators RS}.

Local Abbreviation choice := (@Choice.t P RS).

Lemma mutate_each_in_range (inds : list Z) (st : choice) :
  Forall (fun i => 0 <= i < Z.of_nat (length (Choice.choices st)))%Z inds ->
  (Choice.mutate_each inds st).1 = Ok tt.
Proof.
  intros Hinds. revert st Hinds.
  induction inds as [|ind inds IH]; intros st Hinds; [done|].
  apply Forall_cons in Hinds as [Hind Hinds]. cbn [Choice.mutate_each].
  destruct (getitem_in_range _ _ Hind) as (c & -> & _).
  destruct (param_mutate c (Choice.random_state st)) as [c' rs].
  apply IH. cbn. by rewrite length_insert.
Qed.

(** On an instance that satisfies the shape invariant every drawn index
    addresses an option, so the loop of [mutate()] runs to its end. *)
Lemma mutate_returns (rep : option nat) (arity : nat) (st : choice) :
  choice_in_range -> mutate_keeps_shape -> set_iter_is_set ->
  Choice.well_formed rep arity st ->
  (Choice.mutate st).1 = Ok tt.
Proof.
  intros Hchoice Hkeep Hset (Harity & Hlen & Hrep & Hshape & Hi).
  unfold Choice.mutate.
  pose proof (Hkeep (Choice.weights st) (Choice.random_state st)) as Hw.
  destruct (array_mutate (Choice.weights st) (Choice.random_state st))
    as [w rs]. cbn [fst] in Hw.
  set (st1 := Choice.with_random_state rs (Choice.with_weights w st)).
  assert (Hwf1 : Choice.well_formed rep arity st1).
  { repeat split; try done. cbn. by rewrite Hw. }
  pose proof (draw_well_formed rep arity (Choice._deterministic st1) st1
                Hchoice Hwf1) as Hwf2.
  pose proof (indices_well_formed rep arity _ Hchoice Hwf2)
    as (Hwf3 & _ & Hc3 & _ & Hrange).
  destruct (Choice.indices (Choice._draw (Choice._deterministic st1) st1))
    as [inds st3]. cbn [fst snd] in *.
  apply mutate_each_in_range. apply Forall_forall. intros ind Hind.
  apply (proj2 (Hset inds)) in Hind.
  destruct Hwf3 as (_ & -> & _).
  by apply (proj1 (Forall_forall _ _) Hrange).
Qed.

(** C7: [mutate()] on a [Choice] mutates the weight backing, redraws the
    indices from the new weights, and then mutates the options of the
    newly drawn index set, and only those. On an instance that satisfies
    the shape invariant the call returns normally and each option whose
    index was drawn has been mutated. On any instance, however the call
    ends, an option whose index was not drawn is, after the call, exactly
    what it was before. *)
Theorem mutate_only_drawn_options (rep : option nat) (arity : nat)
  (st st' : choice) (r : result unit) :
  set_iter_is_set ->
  Choice.mutate st = (r, st') ->
  let w := array_mutate (Choice.weights st) (Choice.random_state st) in
  let drawn := (encode (Choice._deterministic st) w.1 w.2).1 in
  Choice.weights st' = w.1
  /\ Choice._indices st' = Some drawn
  /\ (forall k, Z.of_nat k ∉ drawn ->
                Choice.choices st' !! k = Choice.choices st !! k)
  /\ (choice_in_range -> mutate_keeps_shape ->
      Choice.well_formed rep arity st ->
      r = Ok tt
      /\ forall ind, ind ∈ drawn ->
           exists c rs, BaseChoice.getitem (Choice.choices st) ind = Ok c
                        /\ Choice.choices st' !! Z.to_nat ind
                           = Some (param_mutate c rs).1).
Proof.
  intros Hset Hrun.
  assert (Htotal : choice_in_range -> mutate_keeps_shape ->
                   Choice.well_formed rep arity st -> r = Ok tt).
  { intros Hchoice Hkeep Hwf.
    pose proof (mutate_returns rep arity st Hchoice Hkeep Hset Hwf) as Hok.
    by rewrite Hrun in Hok. }
  unfold Choice.mutate in Hrun.
  destruct (array_mutate (Choice.weights st) (Choice.random_state st))
    as [w rs] eqn:Hw.
  cbn [fst snd].
  pose proof (draw_indices
                (Choice._deterministic
                   (Choice.with_random_state rs (Choice.with_weights w st)))
                (Choice.with_random_state rs (Choice.with_weights w st)))
    as (Hi & Hw2 & Hc2 & _ & _).
  rewrite orb_diag in Hi.
  unfold Choice.indices in Hrun. rewrite Hi in Hrun.
  pose proof (mutate_each_frame _ _ _ _ Hrun)
    as (Hw3 & Hi3 & _ & _ & _ & Hframe).
  rewrite Hw2 in Hw3. rewrite Hi in Hi3. rewrite Hc2 in Hframe.
  pose proof Hc2 as Hc2'.
  cbn [Choice.with_random_state Choice.with_weights Choice._deterministic
       Choice.weights Choice.random_state Choice.choices]
    in Hi3, Hw3, Hframe.
  set (drawn := (encode (Choice._deterministic st) w rs).1) in *.
  destruct (Hset drawn) as [Hnodup Hsame].
  repeat split; try done.
  - intros k Hk. apply Hframe. by rewrite Hsame.
  - by apply Htotal.
  - intros ind Hind. rewrite (Htotal ltac:(done) ltac:(done) ltac:(done)) in Hrun.
    destruct (mutate_each_hit _ _ _ Hnodup Hrun ind) as (c & rs' & Hc & Hafter).
    { by rewrite Hsame. }
    rewrite Hc2' in Hc. by exists c, rs'.
Qed.
End MutateDrawnFacts.

(** ** Choice: repetitions *)

Section RepetitionFacts.
Context {P RS : Type} `{Param P RS} `{Collaborators RS}.

Local Abbreviation choice := (@Choice.t P RS).



(** C9 (amended): for a [Choice] whose assignments, if any, brought as
    many values as it has repetitions: with [repetitions = n > 1] reading
    [index] fails on its assertion, since [indices] holds [n] entries;
    with [repetitions] None or 1, [index] succeeds and is [indices[0]]. *)
Theorem index_needs_single_draw (lchoices : list P) (rep : option nat)
  (det : bool) (rs : RS) (st0 : choice) (actions : list Choice.action) :
  choice_in_range -> mutate_keeps_shape ->
  Choice.init lchoices rep det rs = Ok st0 ->
  Forall (Choice.well_sized rep) actions ->
  let st := Choice.run actions st0 in
  (forall n, rep = Some n -> 1 < n ->
      (Choice.index st).1 = Raise AssertionError
      /\ length (Choice.indices st).1 = n)
  /\ (rep = None \/ rep = Some 1 ->
      exists i, (Choice.indices st).1 = [i]
                /\ (Choice.index st).1 = Ok i).
Proof.
  intros Hchoice Hkeep Hinit Hsized st.
  pose proof (init_well_formed _ _ _ _ _ Hinit) as Hwf0.
  pose proof (run_well_formed _ _ actions st0 Hchoice Hkeep Hsized Hwf0)
    as Hwf. fold st in Hwf.
  pose proof (indices_well_formed _ _ st Hchoice Hwf)
    as (_ & _ & _ & Hlen & _).
  unfold Choice.index. destruct (Choice.indices st) as [inds st'].
  cbn [fst] in *. split.
  - intros n -> Hn. cbn in Hlen. rewrite Hlen.
    destruct (Nat.eqb_spec n 1); [lia|done].
  - intros Hrep. assert (Hone : length inds = 1).
    { by destruct Hrep as [-> | ->]. }
    rewrite Hone. destruct inds as [|i [|i' inds]]; try done.
    by exists i.
Qed.
End RepetitionFacts.

(** ** TransitionChoice *)

Section TransitionFacts.
Context {P RS : Type} `{Param P RS} `{Collaborators RS}.

Local Abbreviation transition_choice := (@TransitionChoice.t P RS).

Lemma threshold_discretization_range (x : R) (arity : nat) :
  0 < arity ->
  (0 <= threshold_discretization x arity <= Z.of_nat arity - 1)%Z.
Proof. unfold threshold_discretization. lia. Qed.

Lemma transition_index_range (st : transition_choice) :
  TransitionChoice.choices st <> [] ->
  (0 <= TransitionChoice.index st
   < Z.of_nat (length (TransitionChoice.choices st)))%Z.
Proof.
  intros Hne. unfold TransitionChoice.index.
  pose proof (threshold_discretization_range (TransitionChoice.position st)
                (length (TransitionChoice.choices st))) as Hrange.
  destruct (TransitionChoice.choices st); [done|]. cbn [length] in *. lia.
Qed.

Lemma transition_mutate_length (st : transition_choice) :
  length (TransitionChoice.choices (TransitionChoice.mutate st).2)
  = length (TransitionChoice.choices st).
Proof.
  unfold TransitionChoice.mutate.
  destruct (vector_mutate _ _) as [tr rs0].
  destruct (TransitionChoice.draw_step tr rs0) as [[move sign] rs].
  destruct (BaseChoice.getitem _ _) as [c|e]; [|done].
  destruct (param_mutate c _) as [c' rs']. cbn. by rewrite length_insert.
Qed.

Lemma transition_mutate_n_length (n : nat) (st : transition_choice) :
  length (TransitionChoice.choices (TransitionChoice.mutate_n n st))
  = length (TransitionChoice.choices st).
Proof.
  revert st. induction n as [|n IH]; intros st; [done|].
  cbn [TransitionChoice.mutate_n]. by rewrite IH, transition_mutate_length.
Qed.

(** C2: in [mutate], with [move] the sampled step magnitude and [sign]
    the sampled direction, the index written back through the inverse
    threshold discretization is [max(0, min(arity, index + sign * move))]:
    it lies in [0, arity], and it is [arity] itself, one past the last
    option, whenever [index + sign * move] reaches [arity]. *)
Theorem mutate_writes_clamped_index (st : transition_choice) :
  let arity := length (TransitionChoice.choices st) in
  let tr := vector_mutate (TransitionChoice.transitions st)
              (TransitionChoice.random_state st) in
  (let '(move, sign, _) := TransitionChoice.draw_step tr.1 tr.2 in
   (sign = 1 \/ sign = -1)%Z
   /\ TransitionChoice.position (TransitionChoice.mutate st).2
      = inverse_threshold_discretization
          (TransitionChoice.new_index st sign move) arity)
  /\ (forall (sign : Z) (move : nat),
        TransitionChoice.new_index st sign move
        = Z.max 0 (Z.min (Z.of_nat arity)
                     (TransitionChoice.index st + sign * Z.of_nat move))
        /\ (0 <= TransitionChoice.new_index st sign move <= Z.of_nat arity)%Z)
  /\ (forall (sign : Z) (move : nat),
        (Z.of_nat arity
         <= TransitionChoice.index st + sign * Z.of_nat move)%Z ->
        TransitionChoice.new_index st sign move = Z.of_nat arity).
Proof.
  cbv zeta. split; [|split].
  - unfold TransitionChoice.mutate.
    destruct (vector_mutate _ _) as [tr rs0]. cbn [fst snd].
    destruct (TransitionChoice.draw_step tr rs0) as [[move sign] rs] eqn:Hdraw.
    split.
    { unfold TransitionChoice.draw_step in Hdraw.
      destruct (rs_choice _ _) as [m rs1].
      destruct (rs_randint2 rs1) as [b rs2].
      injection Hdraw as _ <- _. destruct b; [by left|by right]. }
    destruct (BaseChoice.getitem _ _) as [c|e]; [|done].
    by destruct (param_mutate c _) as [c' rs'].
  - intros sign move. unfold TransitionChoice.new_index. lia.
  - intros sign move. unfold TransitionChoice.new_index. lia.
Qed.

(** C3: whatever the number of [mutate()] calls on a [TransitionChoice]
    over [k] options, [index] lies in [0, k-1]; every call found the
    option at its index and mutated it (no call raised). *)
Theorem index_stays_in_range (st : transition_choice) (n : nat) :
  TransitionChoice.choices st <> [] ->
  let st' := TransitionChoice.mutate_n n st in
  let k := length (TransitionChoice.choices st) in
  length (TransitionChoice.choices st') = k
  /\ (0 <= TransitionChoice.index st' <= Z.of_nat k - 1)%Z
  /\ is_Some (TransitionChoice.choices st'
                !! Z.to_nat (TransitionChoice.index st'))
  /\ (TransitionChoice.mutate st').1 = Ok tt.
Proof.
  intros Hne st' k.
  pose proof (transition_mutate_n_length n st) as Hlen. fold st' k in Hlen.
  assert (Hne' : forall s : transition_choice,
             length (TransitionChoice.choices s) = k ->
             TransitionChoice.choices s <> []).
  { intros s Hs Hnil. rewrite Hnil in Hs. subst k.
    destruct (TransitionChoice.choices st); [done|discriminate]. }
  pose proof (transition_index_range st' (Hne' st' Hlen)) as Hrange.
  rewrite Hlen in Hrange. repeat split; try lia.
  - apply lookup_lt_is_Some. lia.
  - unfold TransitionChoice.mutate.
    destruct (vector_mutate _ _) as [tr rs0].
    destruct (TransitionChoice.draw_step tr rs0) as [[move sign] rs].
    set (st3 := TransitionChoice._set_index _ _).
    assert (Hlen3 : length (TransitionChoice.choices st3) = k) by done.
    pose proof (transition_index_range st3 (Hne' st3 Hlen3)) as Hrange3.
    destruct (getitem_in_range _ _ Hrange3) as (c & -> & _).
    by destruct (param_mutate c _).
Qed.
End TransitionFacts.

Import Demo.

(** The instance of the examples is what the constructor builds. *)
Lemma fresh_is_init (rep : option nat) :
  Choice.init Demo.abce rep false 0 = Ok (Demo.fresh rep).
Proof. by destruct rep. Qed.


(** C9, as stated, fails: on [Choice(["a", "b", "c", "e"], repetitions=3)]
    after the assignment [value = ("a",)], which succeeds, reading [index]
    does not fail: it returns 0. *)
Lemma index_after_short_assignment :
  let st := Choice.step (Demo.fresh (Some 3))
              (Choice.Assign (PTuple [PStr "a"])) in
  (Choice.set_value (PTuple [PStr "a"]) (Demo.fresh (Some 3))).1 = Ok tt
  /\ Choice._repetitions st = Some 3
  /\ (Choice.index st).1 = Ok 0%Z
  /\ (Choice.index st).1 <> Raise AssertionError.
Proof. cbv zeta. repeat split; try reflexivity. by intros [=]. Qed.

(** ** The example instance meets the contracts *)

Lemma counter_choice_in_range : @choice_in_range nat counter.
Proof.
  intros p rs Hp. cbn. apply Nat.mod_upper_bound. by destruct p.
Qed.

Lemma counter_mutate_keeps_shape : @mutate_keeps_shape nat counter.
Proof.
  intros w rs. cbn. rewrite <- list_fmap_compose.
  apply list_fmap_ext. intros i row _. cbn. by rewrite length_fmap.
Qed.

Lemma counter_set_iter_is_set : @set_iter_is_set nat counter.
Proof.
  intros l. split; [apply NoDup_remove_dups|].
  intros x. apply elem_of_remove_dups.
Qed.

(** With the logistic stand-in for the normal CDF, position 2 over four
    options is in the last interval. *)
Lemma threshold_at_two : threshold_discretization 2 4 = 3%Z.
Proof.
  unfold threshold_discretization. cbn [norm_cdf counter].
  assert (Hexp : (0 < exp (Ropp 2) < 1 / 3)%R).
  { split; [apply exp_pos|]. rewrite exp_Ropp.
    pose proof (exp_ineq1 2 ltac:(lra)). pose proof (exp_pos 2).
    apply Rmult_lt_reg_r with (exp 2); [done|].
    rewrite Rinv_l by lra. lra. }
  assert (Hlow : (3 <= Zfloor (INR 4 * (1 / (1 + exp (Ropp 2)))))%Z).
  { apply Zfloor_lub. replace (INR 4) with 4%R by (cbn; lra).
    apply Rmult_le_reg_r with (1 + exp (Ropp 2))%R; [lra|].
    field_simplify; lra. }
  lia.
Qed.

(** ** Instances of the statements *)

Lemma mutate_writes_clamped_index_witness :
  let st := TransitionChoice.mk abce 2%R [1%R; 1%R] false 0 in
  TransitionChoice.index st = 3%Z
  /\ TransitionChoice.position (TransitionChoice.mutate st).2
     = inverse_threshold_discretization 4 4.
Proof.
  intros st.
  assert (Hindex : TransitionChoice.index st = 3%Z) by apply threshold_at_two.
  split; [done|].
  destruct (mutate_writes_clamped_index st) as ((_ & Hpos) & _ & Htop).
  rewrite Hpos. f_equal. apply Htop. rewrite Hindex. cbn. lia.
Defined.

Lemma index_stays_in_range_witness :
  let st' := TransitionChoice.mutate_n 3 fresh_transition in
  length (TransitionChoice.choices st') = 4
  /\ (0 <= TransitionChoice.index st' <= 3)%Z
  /\ is_Some (TransitionChoice.choices st'
                !! Z.to_nat (TransitionChoice.index st'))
  /\ (TransitionChoice.mutate st').1 = Ok tt.
Proof. apply (index_stays_in_range fresh_transition 3). done. Defined.

Lemma set_value_resets_weights_witness :
  let run := Choice._find_and_set_value (PStr "c") (fresh None) in
  run.1 = Ok [2%Z]
  /\ Choice._indices run.2 = Some [2%Z]
  /\ Choice.weights run.2 = reset_matrix (weight_for_reset 4) [2%Z] [4].
Proof.
  intros run.
  assert (Hrun : run = (Ok [2%Z], run.2)) by reflexivity.
  destruct (set_value_resets_weights (PStr "c") (fresh None) run.2 [2%Z] Hrun)
    as (Hi & Hw & _).
  split; [reflexivity|]. split; [exact Hi|exact Hw].
Defined.

Lemma find_and_set_value_first_candidate_witness :
  BaseChoice._find_and_set_value false [PStr "c"] abce = (Ok [2%Z], abce)
  /\ BaseChoice._find_and_set_value false [PStr "z"] abce
     = (Raise NoMatchingCandidate, abce).
Proof.
  destruct (@find_and_set_value_first_candidate leaf nat leaf_param)
    as (Hfirst & Hnone & _).
  split.
  - apply (Hfirst (PStr "c") abce 2 (Constant (PStr "c"))); [done|done|].
    intros [|[|j]] cj Hlt Hj; [| |lia]; cbn in Hj; by injection Hj as <-.
  - apply (Hnone (PStr "z") abce).
    intros [|[|[|[|j]]]] cj Hj; cbn in Hj; try done; by injection Hj as <-.
Defined.

Lemma set_value_frozen_unchanged_witness :
  let st := Choice.mk abce [[0; 0; 0; 0]%R] None false None true 0 in
  let st_t := TransitionChoice.mk abce 0%R [1%R; 1%R] true 0 in
  Choice.set_value (PStr "c") st = (Raise Frozen, st)
  /\ TransitionChoice.set_value (PStr "c") st_t = (Raise Frozen, st_t).
Proof.
  destruct (@set_value_frozen_unchanged leaf nat leaf_param counter)
    as [Hchoice Htransition].
  split; [by apply Hchoice|by apply Htransition].
Defined.

Lemma mutate_only_drawn_options_witness :
  let st := Choice.mk [Scalar 5; Scalar 7; Constant (PStr "c")]
              [[0; 0; 0]%R] None true None false 0 in
  let st' := (Choice.mutate st).2 in
  (Choice.mutate st).1 = Ok tt
  /\ Choice._indices st' = Some [0%Z]
  /\ (exists x, Choice.choices st' !! 0 = Some (Scalar x) /\ (5 < x)%Z)
  /\ Choice.choices st' !! 1 = Some (Scalar 7)
  /\ Choice.choices st' !! 2 = Some (Constant (PStr "c")).
Proof.
  intros st st'.
  assert (Hwf : Choice.well_formed None 3 st).
  { repeat split; cbn; try done; lia. }
  assert (Hdrawn :
    (encode (Choice._deterministic st)
       (array_mutate (Choice.weights st) (Choice.random_state st)).1
       (array_mutate (Choice.weights st) (Choice.random_state st)).2).1
    = [0%Z]).
  { cbn. repeat (destruct (Rlt_dec _ _); [lra|]). reflexivity. }
  destruct (mutate_only_drawn_options None 3 st st' (Choice.mutate st).1
              counter_set_iter_is_set)
    as (_ & Hindices & Hframe & Hmutated).
  { subst st'. by destruct (Choice.mutate st). }
  destruct (Hmutated counter_choice_in_range counter_mutate_keeps_shape Hwf)
    as [Hok Hhit].
  rewrite Hdrawn in Hindices, Hframe, Hhit.
  split; [exact Hok|]. split; [exact Hindices|]. split; [|split].
  - destruct (Hhit 0%Z) as (c & rs & Hc & Hafter); [apply list_elem_of_here|].
    injection Hc as <-. exists (5 + Z.of_nat rs + 1)%Z.
    split; [exact Hafter|lia].
  - rewrite (Hframe 1); [reflexivity|].
    intros Hin. apply list_elem_of_singleton in Hin. discriminate.
  - rewrite (Hframe 2); [reflexivity|].
    intros Hin. apply list_elem_of_singleton in Hin. discriminate.
Defined.


Lemma index_needs_single_draw_witness :
  (Choice.index (Choice.run [Choice.ReadIndices; Choice.Mutate]
                   (fresh (Some 3)))).1
  = Raise AssertionError
  /\ exists i,
      (Choice.index (Choice.run [Choice.Assign (PStr "b"); Choice.Mutate]
                       (fresh None))).1
      = Ok i.
Proof.
  split.
  - destruct (index_needs_single_draw abce (Some 3) false 0 (fresh (Some 3))
                [Choice.ReadIndices; Choice.Mutate]
                counter_choice_in_range counter_mutate_keeps_shape
                (fresh_is_init (Some 3)))
      as [Hfail _].
    { repeat constructor. }
    apply (Hfail 3); [done|lia].
  - destruct (index_needs_single_draw abce None false 0 (fresh None)
                [Choice.Assign (PStr "b"); Choice.Mutate]
                counter_choice_in_range counter_mutate_keeps_shape
                (fresh_is_init None))
      as [_ Hone].
    { repeat constructor. }
    destruct Hone as (i & _ & Hi); [by left|]. by exists i.
Defined.


(** * Further properties *)

(** ** BaseChoice: value hash and trial assignment *)

Section BaseChoiceMore.
Context {P RS : Type} `{Param P RS}.
Import BaseChoice.

Lemma hash_entries_frame (inds : list Z) (content content' : list P) :
  (forall ind, ind ∈ inds -> getitem content ind = getitem content' ind) ->
  hash_entries inds content = hash_entries inds content'.
Proof.
  induction inds as [|ind inds IH]; intros Hsame; [done|].
  cbn [hash_entries]. rewrite <- (Hsame ind) by apply list_elem_of_here.
  rewrite IH; [done|]. intros ind' Hin. apply Hsame. by apply list_elem_of_further.
Qed.

(** X1: the value hash only looks at the options at the drawn indices:
    two candidate sets that agree there have the same hash, whatever
    the other options hold. *)
Theorem get_value_hash_ignores_unselected (inds : list Z)
  (content content' : list P) :
  (forall ind, ind ∈ inds -> getitem content ind = getitem content' ind) ->
  get_value_hash inds content = get_value_hash inds content'.
Proof.
  intros Hsame. unfold get_value_hash. by rewrite (hash_entries_frame _ _ _ Hsame).
Qed.

Lemma hash_entry_index (ind ind' : Z) (c c' : P) :
  hash_entry ind c = hash_entry ind' c' -> ind = ind'.
Proof.
  unfold hash_entry. destruct (is_const c), (is_const c'); intros Heq;
    try discriminate; by injection Heq.
Qed.

Lemma hash_entries_indices (inds inds' : list Z) (content content' : list P)
  (hashes : list pyvalue) :
  hash_entries inds content = Ok hashes ->
  hash_entries inds' content' = Ok hashes ->
  inds = inds'.
Proof.
  revert inds' hashes. induction inds as [|ind inds IH];
    intros [|ind' inds'] hashes; cbn [hash_entries].
  - done.
  - intros [= <-]. destruct (getitem content' ind'); [|discriminate].
    by destruct (hash_entries inds' content').
  - destruct (getitem content ind); [|discriminate].
    destruct (hash_entries inds content); [|discriminate].
    by intros [= <-] [=].
  - destruct (getitem content ind) as [c|]; [|discriminate].
    destruct (hash_entries inds content) as [hs|] eqn:Hhs; [|discriminate].
    destruct (getitem content' ind') as [c'|]; [|discriminate].
    destruct (hash_entries inds' content') as [hs'|] eqn:Hhs'; [|discriminate].
    intros [= <-] [= Hentry Htail]. subst hs'.
    apply hash_entry_index in Hentry as ->.
    f_equal. by apply (IH inds' hs).
Qed.

(** X2: among selections of the same size, the value hash tells the drawn
    indices apart: equal hashes mean the same indices, in the same order. *)
Theorem get_value_hash_determines_indices (inds inds' : list Z)
  (content content' : list P) (h : pyvalue) :
  length inds = length inds' ->
  get_value_hash inds content = Ok h ->
  get_value_hash inds' content' = Ok h ->
  inds = inds'.
Proof.
  unfold get_value_hash. intros Hlen.
  destruct (hash_entries inds content) as [hs|] eqn:Hhs; [|discriminate].
  destruct (hash_entries inds' content') as [hs'|] eqn:Hhs'; [|discriminate].
  pose proof (hash_entries_length _ _ _ Hhs) as Hl.
  pose proof (hash_entries_length _ _ _ Hhs') as Hl'.
  destruct (Nat.ltb_spec 1 (length hs)), (Nat.ltb_spec 1 (length hs')); try lia.
  - intros [= <-] [= ->]. by apply (hash_entries_indices _ _ _ _ _ Hhs Hhs').
  - destruct hs as [|e [|? ?]]; cbn in *; try lia; [discriminate|].
    destruct hs' as [|e' [|? ?]]; cbn in *; try lia.
    intros [= <-] [= ->]. by apply (hash_entries_indices _ _ _ _ _ Hhs Hhs').
Qed.

(** The key the inner loop returns, unless it is the initial -1, is the
    key of a candidate that took the value and now holds the state the
    assignment left. *)
Lemma try_candidates_accepted (value : pyvalue) (nums : list nat)
  (content content' : list P) (k : Z) :
  try_candidates value nums content = (Ok k, content') ->
  k <> (-1)%Z ->
  (0 <= k)%Z
  /\ exists c c', param_set_value value c = (Ok tt, c')
                  /\ content' !! Z.to_nat k = Some c'.
Proof.
  revert content. induction nums as [|j nums IH]; intros content; cbn.
  - by intros [= <- _].
  - destruct (content !! j) as [c|] eqn:Hc; [|discriminate].
    destruct (param_set_value value c) as [[[]|e] c'] eqn:Hset.
    + intros [= <- <-] _. split; [lia|]. exists c, c'. split; [done|].
      rewrite Nat2Z.id. apply list_lookup_insert_eq.
      by apply lookup_lt_Some in Hc.
    + apply IH.
Qed.

Lemma find_and_set_value_accepted (frozen : bool) (value : pyvalue)
  (content content' : list P) (k : Z) :
  _find_and_set_value frozen [value] content = (Ok [k], content') ->
  exists c c', param_set_value value c = (Ok tt, c')
               /\ content' !! Z.to_nat k = Some c'.
Proof.
  intros Hrun. destruct frozen; [discriminate|].
  rewrite find_and_set_value_single in Hrun.
  destruct (try_candidates value (sorted_keys content) content)
    as [[k0|e] c1] eqn:Htry; [|discriminate].
  destruct (Z.eqb_spec k0 (-1)) as [|Hk]; [discriminate|].
  injection Hrun as -> ->.
  by apply (try_candidates_accepted _ _ _ _ _ Htry Hk).
Qed.

(** X3: a trial assignment never changes the number of candidates, however
    it ends; when it succeeds the instance was not frozen and there is one
    index per value, each the key of a candidate; for a single value the
    candidate at that index holds the state in which it accepted the
    value. *)
Theorem find_and_set_value_outcome (frozen : bool) :
  (forall (values : list pyvalue) (content : list P),
      length (_find_and_set_value frozen values content).2 = length content)
  /\ (forall (values : list pyvalue) (content content' : list P) (inds : list Z),
        _find_and_set_value frozen values content = (Ok inds, content') ->
        frozen = false
        /\ length inds = length values
        /\ Forall (fun k => 0 <= k < Z.of_nat (length content))%Z inds)
  /\ (forall (value : pyvalue) (content content' : list P) (k : Z),
        _find_and_set_value frozen [value] content = (Ok [k], content') ->
        exists c c', param_set_value value c = (Ok tt, c')
                     /\ content' !! Z.to_nat k = Some c').
Proof.
  split; [apply find_and_set_value_length|]. split.
  - intros values content content' inds Hrun. split.
    + destruct frozen; [discriminate|done].
    + apply find_and_set_value_ok in Hrun as (? & ? & _). by split.
  - apply find_and_set_value_accepted.
Qed.
End BaseChoiceMore.

(** ** Choice: reads, assignment and mutation *)

Section ChoiceMore.
Context {P RS : Type} `{Param P RS} `{Collaborators RS}.

Local Abbreviation choice := (@Choice.t P RS).

Lemma indices_of_cached (st : choice) (inds : list Z) :
  Choice._indices st = Some inds -> Choice.indices st = (inds, st).
Proof. intros Hi. unfold Choice.indices. by rewrite Hi. Qed.

Lemma indices_caches (st : choice) :
  Choice._indices (Choice.indices st).2 = Some (Choice.indices st).1
  /\ Choice._repetitions (Choice.indices st).2 = Choice._repetitions st
  /\ Choice.choices (Choice.indices st).2 = Choice.choices st
  /\ Choice.weights (Choice.indices st).2 = Choice.weights st.
Proof.
  unfold Choice.indices. destruct (Choice._indices st) as [inds|] eqn:Hi;
    cbn [fst snd]; [done|].
  destruct (draw_indices (Choice._deterministic st) st) as (-> & -> & -> & -> & _).
  done.
Qed.


Lemma set_value_ok_inv (values : pyvalue) (st st' : choice) :
  Choice.set_value values st = (Ok tt, st') ->
  exists vs inds content,
    match Choice._repetitions st with
    | Some _ => py_iter values
    | None => Ok [values]
    end = Ok vs
    /\ BaseChoice._find_and_set_value false vs (Choice.choices st)
       = (Ok inds, content)
    /\ Choice.reset_weights inds (Choice.with_choices content st) = (Ok tt, st').
Proof.
  unfold Choice.set_value, Choice._find_and_set_value.
  destruct (match Choice._repetitions st with
            | Some _ => py_iter values
            | None => Ok [values]
            end) as [vs|e].
  2:{ by destruct (BaseChoice._check_frozen (Choice._frozen st)). }
  destruct (Choice._frozen st).
  { unfold BaseChoice._find_and_set_value. cbn. discriminate. }
  destruct (BaseChoice._find_and_set_value false vs (Choice.choices st))
    as [[inds|e] content] eqn:Hbase; [|discriminate].
  destruct (Choice.reset_weights inds (Choice.with_choices content st))
    as [[[]|e] st1] eqn:Hreset; [|discriminate].
  intros [= <-]. by exists vs, inds, content.
Qed.

(** X5: on a [Choice] without repetitions whose options read back what
    they accept, a successful assignment is read back as assigned: [value]
    returns the assigned value and [index] the index that was resolved,
    both without a new draw. *)
Theorem set_value_then_value (v : pyvalue) (st st' : choice) :
  set_then_get ->
  Choice._repetitions st = None ->
  Choice.set_value v st = (Ok tt, st') ->
  Choice._get_value st' = (Ok v, st')
  /\ exists k, Choice._indices st' = Some [k]
               /\ Choice.index st' = (Ok k, st').
Proof.
  intros Hlaw Hrep Hrun.
  apply set_value_ok_inv in Hrun as (vs & inds & content & Hvs & Hbase & Hreset).
  rewrite Hrep in Hvs. injection Hvs as <-.
  apply reset_weights_ok in Hreset as (Hi & _ & Hc & Hr). cbn in Hc, Hr.
  pose proof (find_and_set_value_ok _ _ _ _ _ Hbase) as (Hlen & _).
  cbn in Hlen. destruct inds as [|k [|? ?]]; try done.
  destruct (find_and_set_value_accepted _ _ _ _ _ Hbase)
    as (c & c' & Hset & Hlook).
  assert (Hk : (0 <= k)%Z).
  { apply find_and_set_value_ok in Hbase as (_ & Hrange & _).
    apply Forall_cons in Hrange as [? _]. lia. }
  assert (Hindex : Choice.index st' = (Ok k, st')).
  { unfold Choice.index. by rewrite (indices_of_cached _ _ Hi). }
  split; [|by exists k].
  unfold Choice._get_value. rewrite Hr, Hrep, Hindex.
  unfold BaseChoice._get_value, BaseChoice.getitem. rewrite Hc, Hlook.
  destruct (Z.ltb_spec k 0); [lia|]. by rewrite (Hlaw v c c' Hset).
Qed.
Lemma fancy_assign_shape (coeff : R) (inds : list Z) (i : nat)
  (out out' : list (list R)) :
  fancy_assign coeff i inds out = Ok out' ->
  length <$> out' = length <$> out.
Proof.
  revert i out. induction inds as [|ind inds IH]; intros i out; cbn.
  - by intros [= <-].
  - destruct (out !! i) as [row|] eqn:Hrow; [|discriminate].
    destruct (_ || _); [discriminate|]. intros Hrun.
    rewrite (IH _ _ Hrun). rewrite list_fmap_insert, length_insert.
    apply list_insert_id. by rewrite list_lookup_fmap, Hrow.
Qed.

(** The fancy-indexed assignment on [n] rows of [k] cells, given indices
    below [k]: it goes through when there are enough rows, and raises
    IndexError when it runs out of rows. *)
Lemma fancy_assign_rows (coeff : R) (n k : nat) (inds : list Z) (i : nat)
  (out : list (list R)) :
  length <$> out = replicate n k ->
  Forall (fun ind => 0 <= ind < Z.of_nat k)%Z inds ->
  i <= n ->
  (i + length inds <= n -> is_ok (fancy_assign coeff i inds out) = true)
  /\ (n < i + length inds -> fancy_assign coeff i inds out = Raise IndexError).
Proof.
  intros Hshape Hinds. revert i out Hshape.
  induction Hinds as [|ind inds Hind Hinds IH]; intros i out Hshape Hi.
  - cbn. split; [done|lia].
  - assert (Hn : length out = n).
    { by rewrite <- (length_fmap length out), Hshape, length_replicate. }
    cbn [fancy_assign length].
    destruct (out !! i) as [row|] eqn:Hrow.
    + assert (Hlt : i < n) by (apply lookup_lt_Some in Hrow; lia).
      assert (Hk : length row = k).
      { assert (Hl : (length <$> out) !! i = Some (length row))
          by by rewrite list_lookup_fmap, Hrow.
        rewrite Hshape in Hl. by apply lookup_replicate in Hl as [-> _]. }
      rewrite Hk.
      destruct (Z.ltb_spec ind 0); [lia|].
      destruct (Z.leb_spec (Z.of_nat k) ind); [lia|]. cbn [orb].
      destruct (IH (S i) (<[i := <[Z.to_nat ind := coeff]> row]> out))
        as [Hok Hfail]; [|lia|].
      * rewrite list_fmap_insert, length_insert, <- Hshape.
        apply list_insert_id. by rewrite list_lookup_fmap, Hrow.
      * split; intros ?; [apply Hok|apply Hfail]; lia.
    + apply lookup_ge_None in Hrow. split; [lia|done].
Qed.

(** X6: how an assignment to a [Choice] can fail, on an instance with [n]
    weight rows. If the trial assignment raises, the same exception comes
    out and weights and cached indices are untouched. If it resolves all
    values, the call succeeds when there are at most [n] values; with more
    than [n] values it raises IndexError, after it has recorded the indices
    and set every weight to zero. *)
Theorem set_value_failure_modes (rep : option nat) (arity : nat)
  (values : pyvalue) (vs : list pyvalue) (st : choice) :
  Choice.well_formed rep arity st ->
  match rep with Some _ => py_iter values | None => Ok [values] end = Ok vs ->
  let n := default 1 rep in
  let base := BaseChoice._find_and_set_value (Choice._frozen st) vs
                (Choice.choices st) in
  let after := Choice.set_value values st in
  (forall e, base.1 = Raise e ->
      after.1 = Raise e
      /\ Choice.weights after.2 = Choice.weights st
      /\ Choice._indices after.2 = Choice._indices st)
  /\ (forall inds, base.1 = Ok inds -> length vs <= n -> after.1 = Ok tt)
  /\ (forall inds, base.1 = Ok inds -> n < length vs ->
        after.1 = Raise IndexError
        /\ Choice.weights after.2 = zeros_like (Choice.weights st)
        /\ Choice._indices after.2 = Some inds).
Proof.
  intros (Harity & Hlen & Hrep & Hshape & _) Hvs n base after.
  subst base after. unfold Choice.set_value, Choice._find_and_set_value.
  rewrite Hrep, Hvs.
  destruct (BaseChoice._find_and_set_value (Choice._frozen st) vs
              (Choice.choices st)) as [[inds|e] content] eqn:Hbase; cbn [fst].
  - apply find_and_set_value_ok in Hbase as (Hl & Hrange & _).
    rewrite Hlen in Hrange.
    destruct (fancy_assign_rows
                (weight_for_reset (ncols (Choice.weights st))) n arity inds 0
                (zeros_like (Choice.weights st))) as [Hok Hfail]; [|done|lia|].
    { by rewrite zeros_like_shape. }
    unfold Choice.reset_weights.
    cbn [Choice.with_choices Choice.with_indices Choice.with_weights
         Choice.weights Choice.choices Choice._indices].
    split; [discriminate|]. split.
    + intros ? _ Hle. rewrite Hl in Hok.
      by destruct (fancy_assign _ 0 inds _); [|discriminate Hok].
    + intros inds0 [= <-] Hgt. by rewrite Hfail by lia.
  - split; [|split; discriminate]. by intros e0 [= <-].
Qed.


Lemma set_value_arity (values : pyvalue) (st : choice) :
  length (Choice.choices (Choice.set_value values st).2)
  = length (Choice.choices st).
Proof.
  unfold Choice.set_value, Choice._find_and_set_value.
  destruct (match Choice._repetitions st with
            | Some _ => py_iter values
            | None => Ok [values]
            end) as [vs|e].
  2:{ by destruct (BaseChoice._check_frozen (Choice._frozen st)). }
  pose proof (find_and_set_value_length (Choice._frozen st) vs
                (Choice.choices st)) as Hcontent.
  destruct (BaseChoice._find_and_set_value (Choice._frozen st) vs
              (Choice.choices st)) as [[inds|e] content]; cbn [snd] in Hcontent;
    [|done].
  destruct (Choice.reset_weights inds (Choice.with_choices content st))
    as [r st'] eqn:Hreset.
  apply reset_weights_shape in Hreset as (_ & _ & Hc & _).
  destruct r; cbn; by rewrite Hc.
Qed.

Lemma mutate_arity (st : choice) :
  length (Choice.choices (Choice.mutate st).2) = length (Choice.choices st).
Proof.
  unfold Choice.mutate.
  destruct (array_mutate (Choice.weights st) (Choice.random_state st))
    as [w rs].
  set (st1 := Choice.with_random_state rs (Choice.with_weights w st)).
  destruct (indices_caches (Choice._draw (Choice._deterministic st1) st1))
    as (_ & _ & Hc & _).
  destruct (Choice.indices (Choice._draw (Choice._deterministic st1) st1))
    as [inds st3]. cbn [snd] in Hc.
  destruct (Choice.mutate_each (set_iter inds) st3) as [r st4] eqn:Hloop.
  apply mutate_each_frame in Hloop as (_ & _ & _ & _ & Hl & _).
  cbn [snd]. rewrite Hl, Hc.
  by destruct (draw_indices (Choice._deterministic st1) st1) as (_ & _ & -> & _).
Qed.

(** X8: the number of options of a [Choice], what [len()] returns, never
    changes: not by reads, not by [mutate()], not by an assignment, whether
    the call succeeds or raises. *)
Theorem len_is_constant (actions : list Choice.action) (st : choice) :
  ChoiceTree.__len__ (Choice.run actions st) = ChoiceTree.__len__ st.
Proof.
  unfold ChoiceTree.__len__. revert st. induction actions as [|a actions IH]; intros st; [done|].
  cbn [Choice.run foldl]. fold (Choice.run actions (Choice.step st a)).
  rewrite IH. destruct a; cbn [Choice.step].
  - by destruct (indices_caches st) as (_ & _ & -> & _).
  - rewrite index_state. by destruct (indices_caches st) as (_ & _ & -> & _).
  - rewrite get_value_state.
    by destruct (indices_caches st) as (_ & _ & -> & _).
  - rewrite get_value_hash_state.
    by destruct (indices_caches st) as (_ & _ & -> & _).
  - apply mutate_arity.
  - apply set_value_arity.
Qed.
(** X9: a [Choice] with zero repetitions (no weight row) draws no index
    at all: [indices] is empty, [value] is the empty tuple, [index] fails
    on its assertion and [get_value_hash] raises IndexError, since there
    is no first hash to return. *)
Theorem zero_repetitions (arity : nat) (st : choice) :
  Choice.well_formed (Some 0) arity st ->
  (Choice.indices st).1 = []
  /\ (Choice._get_value st).1 = Ok (PTuple [])
  /\ (Choice.index st).1 = Raise AssertionError
  /\ (Choice.get_value_hash st).1 = Raise IndexError.
Proof.
  intros (_ & _ & Hrep & Hshape & Hi). cbn in Hshape.
  apply fmap_nil_inv in Hshape.
  assert (Hinds : exists st', Choice.indices st = ([], st')).
  { unfold Choice.indices. destruct (Choice._indices st) as [inds|].
    - destruct Hi as [Hlen _]. destruct inds; [by eexists|discriminate].
    - unfold Choice._draw. rewrite Hshape. cbn. by eexists. }
  destruct Hinds as [st' Hinds].
  unfold Choice._get_value, Choice.index, Choice.get_value_hash.
  by rewrite Hrep, Hinds.
Qed.




Lemma argmax_from_stays (f : nat -> R) (best : R) (besti : nat) (m i : nat) :
  (forall j, i <= j -> (f j <= best)%R) ->
  argmax_from best besti i (f <$> seq i m) = besti.
Proof.
  revert i. induction m as [|m IH]; intros i Hle; [done|].
  cbn [seq fmap list_fmap argmax_from].
  destruct (Rlt_dec best (f i)) as [Hlt|_].
  - specialize (Hle i ltac:(lia)). lra.
  - apply IH. intros j Hj. apply Hle. lia.
Qed.

Lemma argmax_from_one_hot (f : nat -> R) (c : R) (j0 besti m i : nat) :
  (0 < c)%R -> f j0 = c -> (forall j, j <> j0 -> f j = 0%R) ->
  i <= j0 < i + m ->
  argmax_from 0 besti i (f <$> seq i m) = j0.
Proof.
  intros Hc Hj0 Hother. revert i besti.
  induction m as [|m IH]; intros i besti Hi; [lia|].
  cbn [seq fmap list_fmap argmax_from].
  destruct (decide (i = j0)) as [->|Hne].
  - rewrite Hj0. destruct (Rlt_dec 0 c); [|lra].
    apply argmax_from_stays. intros j Hj. rewrite Hother by lia. lra.
  - rewrite (Hother i Hne). destruct (Rlt_dec 0 0); [lra|].
    apply IH. lia.
Qed.

(** The argmax of a row that is zero except for a positive entry is the
    position of that entry. *)
Lemma argmax_one_hot (f : nat -> R) (c : R) (j0 n : nat) :
  (0 < c)%R -> f j0 = c -> (forall j, j <> j0 -> f j = 0%R) -> j0 < n ->
  argmax (f <$> seq 0 n) = j0.
Proof.
  intros Hc Hj0 Hother Hlt. destruct n as [|n]; [lia|].
  cbn [seq fmap list_fmap argmax].
  destruct (decide (j0 = 0)) as [->|Hne].
  - rewrite Hj0. apply argmax_from_stays. intros j Hj.
    rewrite Hother by lia. lra.
  - rewrite (Hother 0) by lia. apply argmax_from_one_hot with c; try done. lia.
Qed.

Lemma encode_deterministic (w : list (list R)) (rs : RS) :
  encode true w rs = ((fun row : list R => Z.of_nat (argmax row)) <$> w, rs).
Proof.
  induction w as [|row w IH]; [done|]. cbn [encode encode_row].
  by rewrite IH.
Qed.

(** X11: after a successful assignment that brings one value per weight
    row, and with a positive reset confidence, the deterministic decoding
    of the new weights gives back the recorded indices: a deterministic
    redraw leaves the instance exactly as the assignment left it. *)
Theorem set_value_then_deterministic_draw (rep : option nat) (arity : nat)
  (values : pyvalue) (st st' : choice) :
  Choice.well_formed rep arity st ->
  Choice.well_sized rep (Choice.Assign values) ->
  (0 < weight_for_reset arity)%R ->
  Choice.set_value values st = (Ok tt, st') ->
  (forall rs, (encode true (Choice.weights st') rs).1
              = default [] (Choice._indices st'))
  /\ Choice._draw true st' = st'.
Proof.
  intros (Harity & Hlen & Hrep & Hshape & _) Hsized Hcoeff Hrun.
  apply set_value_ok_inv in Hrun as (vs & inds & content & Hvs & Hbase & Hreset).
  rewrite Hrep in Hvs.
  assert (Hn : length vs = default 1 rep).
  { destruct rep as [n|]; cbn in *.
    - by rewrite Hvs in Hsized.
    - by injection Hvs as <-. }
  apply find_and_set_value_ok in Hbase as (Hl & Hrange & _).
  rewrite Hlen in Hrange.
  apply reset_weights_ok in Hreset as (Hi & Hw & _). cbn in Hw.
  rewrite Hshape in Hw.
  assert (Hdecode : forall rs,
    encode true (Choice.weights st') rs = (inds, rs)).
  { intros rs. rewrite encode_deterministic. f_equal.
    rewrite Hw. unfold reset_matrix. apply list_eq. intros r.
    rewrite list_lookup_fmap, list_lookup_imap.
    destruct (decide (r < default 1 rep)) as [Hr|Hr].
    - rewrite lookup_replicate_2 by done. cbn.
      destruct (lookup_lt_is_Some_2 inds r) as [ind Hind]; [lia|].
      rewrite Hind. f_equal.
      pose proof (Forall_lookup_1 _ _ _ _ Hrange Hind) as Hin. cbn in Hin.
      assert (Hcols : ncols (Choice.weights st) = arity).
      { destruct (Choice.weights st) as [|row w] eqn:Hweights.
        - destruct (default 1 rep); [lia|discriminate].
        - destruct (default 1 rep); [discriminate|].
          cbn in Hshape |- *. by injection Hshape. }
      rewrite Hcols.
      rewrite (argmax_one_hot _ (weight_for_reset arity) (Z.to_nat ind));
        try done; try lia.
      + rewrite decide_True; [done|]. f_equal. lia.
      + intros j Hj. rewrite decide_False; [done|]. intros [= ->]. lia.
    - rewrite (proj2 (lookup_ge_None inds r)) by lia.
      by rewrite (proj2 (lookup_ge_None (replicate _ _) r))
        by (rewrite length_replicate; lia). }
  split.
  - intros rs. by rewrite Hdecode, Hi.
  - unfold Choice._draw. cbn [orb]. rewrite Hdecode, <- Hi. by destruct st'.
Qed.
End ChoiceMore.

(** ** Choice: the overrides that hand over to the tree *)

Section TreeFacts.
Context {P RS : Type} `{Param P RS} `{Collaborators RS} `{Tree P RS}.

Local Abbreviation choice := (@Choice.t P RS).

(** X12: [_internal_set_standardized_data] always ends on a new draw from
    the weights it leaves: whatever indices were cached are replaced. With
    [deterministic=True] these are the argmax of each weight row, also on
    an instance that was built stochastic. The shape invariant is kept. *)
Theorem set_standardized_data_redraws (rep : option nat) (arity : nat)
  (data : list R) (reference st : choice) (deterministic : bool) :
  tree_keeps_shape -> choice_in_range ->
  Choice.well_formed rep arity st ->
  let st' := ChoiceTree._internal_set_standardized_data data reference
               deterministic st in
  Choice.well_formed rep arity st'
  /\ (exists rs,
        Choice._indices st'
        = Some (encode (deterministic || Choice._deterministic st)
                  (Choice.weights st') rs).1)
  /\ (deterministic = true ->
      Choice._indices st'
      = Some ((fun row : list R => Z.of_nat (argmax row))
                <$> Choice.weights st')).
Proof.
  intros (Hdict & _) Hchoice (Harity & Hlen & Hrep & Hshape & Hi0) st'.
  subst st'. unfold ChoiceTree._internal_set_standardized_data.
  pose proof (Hdict data deterministic
                (Choice.choices st, Choice.weights st)
                (Choice.choices reference, Choice.weights reference)
                (Choice.random_state st)) as [Hc Hw].
  destruct (dict_set_standardized_data _ _ _ _ _) as [[content w] rs].
  cbn [fst snd] in Hc, Hw.
  set (st1 := Choice.with_random_state rs
                (Choice.with_weights w (Choice.with_choices content st))).
  assert (Hwf1 : Choice.well_formed rep arity st1).
  { unfold Choice.well_formed. cbn. rewrite Hc, Hw.
    repeat split; try done. }
  split; [by apply draw_well_formed|].
  destruct (draw_indices deterministic st1) as (Hi & Hw' & _).
  rewrite Hi, Hw'. cbn [st1 Choice.with_random_state Choice.with_weights
    Choice.with_choices Choice._deterministic Choice.weights
    Choice.random_state]. split.
  - by exists rs.
  - intros ->. cbn [orb]. by rewrite encode_deterministic.
Qed.

(** X13: spawning a child from an instance that satisfies the shape
    invariant never fails; the child satisfies the invariant, keeps the
    [repetitions] and [deterministic] settings, is not frozen, and has no
    cached indices, so that its first read makes its own draw from the
    spawned weights. *)
Theorem spawn_child_is_fresh (rep : option nat) (arity : nat) (rs : RS)
  (st : choice) :
  tree_keeps_shape ->
  Choice.well_formed rep arity st ->
  exists child,
    ChoiceTree._internal_spawn_child rs st = Ok child
    /\ Choice.well_formed rep arity child
    /\ Choice._indices child = None
    /\ Choice._deterministic child = Choice._deterministic st
    /\ Choice._frozen child = false
    /\ Choice.weights child = array_spawn_child (Choice.weights st)
    /\ (Choice.indices child).1
       = (encode (Choice._deterministic st)
            (array_spawn_child (Choice.weights st)) rs).1.
Proof.
  intros (_ & Htuple & Harray) (Harity & Hlen & Hrep & Hshape & _).
  unfold ChoiceTree._internal_spawn_child, Choice.init.
  pose proof (Htuple (Choice.choices st)) as Hl.
  destruct (tuple_spawn_child (Choice.choices st)) as [|c content] eqn:Hspawn.
  { cbn in Hl. lia. }
  eexists. split; [reflexivity|].
  cbn [Choice.with_weights Choice.choices Choice.weights Choice._repetitions
       Choice._deterministic Choice._indices Choice._frozen
       Choice.random_state].
  repeat split; try done.
  - cbn. cbn in Hl. lia.
  - cbn. by rewrite Harray.
  - unfold Choice.indices, Choice._draw. cbn. rewrite orb_diag.
    by destruct (encode _ _ _).
Qed.
End TreeFacts.

(** ** The name of a Choice *)

Lemma substring_all (s : string) : substring 0 (String.length s) s = s.
Proof. induction s as [|a s IH]; cbn; [done|]. by rewrite IH. Qed.

Lemma prefix_split (cls name : string) :
  String.prefix cls name = true ->
  name = String.append cls
           (substring (String.length cls)
              (String.length name - String.length cls) name).
Proof.
  revert name. induction cls as [|a cls IH]; intros name Hprefix.
  - cbn. by rewrite Nat.sub_0_r, substring_all.
  - destruct name as [|b name]; [discriminate|]. cbn in Hprefix.
    destruct (Ascii.ascii_dec a b) as [->|]; [|discriminate].
    cbn. f_equal. by apply IH.
Qed.

Lemma append_length (s t : string) :
  String.length (String.append s t) = String.length s + String.length t.
Proof. induction s as [|a s IH]; cbn; [done|]. by rewrite IH. Qed.

Lemma prefix_append (s t : string) : String.prefix s (String.append s t) = true.
Proof.
  induction s as [|a s IH]; cbn; [by destruct t|].
  by destruct (Ascii.ascii_dec a a).
Qed.

(** X14: [_get_name] fails on its assertion exactly when the name built by
    the parent class does not start with the class name. Otherwise a
    stochastic instance keeps that name, and a deterministic one gets the
    tag "{det}" right behind the class name: the result still starts with
    the class name, is five characters longer, and differs from the
    stochastic name. *)
Theorem get_name_tags_deterministic (name cls : string) :
  (String.prefix cls name = false ->
   forall d, ChoiceTree._get_name name cls d = Raise AssertionError)
  /\ (String.prefix cls name = true ->
      ChoiceTree._get_name name cls false = Ok name
      /\ exists rest tagged,
          name = String.append cls rest
          /\ ChoiceTree._get_name name cls true = Ok tagged
          /\ tagged = String.append cls (String.append "{det}" rest)
          /\ String.prefix cls tagged = true
          /\ String.length tagged = String.length name + 5
          /\ tagged <> name).
Proof.
  unfold ChoiceTree._get_name. split; intros Hprefix; rewrite Hprefix; [done|].
  split; [done|].
  pose proof (prefix_split cls name Hprefix) as Hname.
  set (rest := substring (String.length cls)
                 (String.length name - String.length cls) name) in *.
  exists rest, (String.append cls (String.append "{det}" rest)).
  assert (Hlen : String.length (String.append cls (String.append "{det}" rest))
                 = String.length name + 5).
  { pose proof (f_equal String.length Hname) as Hl.
    rewrite append_length in Hl. rewrite !append_length. cbn. lia. }
  repeat split; try done.
  - apply prefix_append.
  - intros Heq. rewrite Heq in Hlen. lia.
Qed.

(** ** TransitionChoice: reads, assignment and mutation *)

Section TransitionMore.
Context {P RS : Type} `{Param P RS} `{Collaborators RS}.

Local Abbreviation transition_choice := (@TransitionChoice.t P RS).

(** X15: on a [TransitionChoice], which always has at least one option,
    no read fails: [index] addresses an option, [value] is the value of
    that option, [indices] is the one-element array of [index], and the
    value hash is the entry of that single index. *)
Theorem transition_reads_never_fail (st : transition_choice) :
  TransitionChoice.choices st <> [] ->
  exists c,
    TransitionChoice.choices st !! Z.to_nat (TransitionChoice.index st) = Some c
    /\ TransitionChoice._get_value st = Ok (param_value c)
    /\ TransitionChoice.indices st = [TransitionChoice.index st]
    /\ TransitionChoice.get_value_hash st
       = Ok (BaseChoice.hash_entry (TransitionChoice.index st) c).
Proof.
  intros Hne. pose proof (transition_index_range st Hne) as Hrange.
  destruct (getitem_in_range _ _ Hrange) as (c & Hc & Hlook).
  exists c. unfold TransitionChoice._get_value, BaseChoice._get_value,
    TransitionChoice.get_value_hash, BaseChoice.get_value_hash,
    TransitionChoice.indices.
  cbn [BaseChoice.hash_entries]. by rewrite Hc.
Qed.

(** X16: assignment to a [TransitionChoice]. A failed assignment leaves
    position and transitions as they were. A successful one, when the
    discretization pair round-trips and options read back what they
    accept, is read back as assigned: [value] returns the assigned value,
    and the position is the one the inverse discretization gives for the
    index that [index] then returns. *)
Theorem transition_set_value_then_value (v : pyvalue) (st : transition_choice) :
  (forall e st', TransitionChoice.set_value v st = (Raise e, st') ->
      TransitionChoice.position st' = TransitionChoice.position st
      /\ TransitionChoice.transitions st' = TransitionChoice.transitions st
      /\ length (TransitionChoice.choices st')
         = length (TransitionChoice.choices st))
  /\ (discretization_round_trip -> set_then_get ->
      forall st', TransitionChoice.set_value v st = (Ok tt, st') ->
        TransitionChoice._get_value st' = Ok v
        /\ TransitionChoice.position st'
           = inverse_threshold_discretization (TransitionChoice.index st')
               (length (TransitionChoice.choices st'))).
Proof.
  unfold TransitionChoice.set_value, TransitionChoice._find_and_set_value.
  pose proof (find_and_set_value_length (TransitionChoice._frozen st) [v]
                (TransitionChoice.choices st)) as Hcontent.
  destruct (BaseChoice._find_and_set_value (TransitionChoice._frozen st) [v]
              (TransitionChoice.choices st)) as [[inds|e] content] eqn:Hbase;
    cbn [snd] in Hcontent.
  - pose proof (find_and_set_value_ok _ _ _ _ _ Hbase) as (Hlen & Hrange & _).
    destruct inds as [|k [|? ?]]; try done. split; [done|].
    intros Hround Hlaw st' [= <-].
    apply Forall_cons in Hrange as [Hk _].
    destruct (find_and_set_value_accepted _ _ _ _ _ Hbase)
      as (c & c' & Hset & Hlook).
    assert (Hindex :
      TransitionChoice.index
        (TransitionChoice._set_index k (TransitionChoice.with_choices content st))
      = k).
    { unfold TransitionChoice.index, TransitionChoice._set_index. cbn.
      apply Hround. by rewrite Hcontent. }
    split.
    + unfold TransitionChoice._get_value. rewrite Hindex.
      unfold BaseChoice._get_value, BaseChoice.getitem. cbn.
      destruct (Z.ltb_spec k 0); [lia|].
      by rewrite Hlook, (Hlaw v c c' Hset).
    + by rewrite Hindex.
  - split; [|done]. intros e0 st' [= <- <-]. by cbn.
Qed.

Lemma transition_mutate_index (st : transition_choice) :
  let tr := vector_mutate (TransitionChoice.transitions st)
              (TransitionChoice.random_state st) in
  let '(move, sign, _) := TransitionChoice.draw_step tr.1 tr.2 in
  TransitionChoice.index (TransitionChoice.mutate st).2
  = threshold_discretization
      (inverse_threshold_discretization
         (TransitionChoice.new_index st sign move)
         (length (TransitionChoice.choices st)))
      (length (TransitionChoice.choices st)).
Proof.
  cbv zeta. unfold TransitionChoice.mutate.
  destruct (vector_mutate _ _) as [tr rs0]. cbn [fst snd].
  destruct (TransitionChoice.draw_step tr rs0) as [[move sign] rs].
  destruct (BaseChoice.getitem _ _) as [c|e]; [|done].
  destruct (param_mutate c _) as [c' rs'].
  unfold TransitionChoice.index. cbn. by rewrite length_insert.
Qed.

Lemma draw_step_sign (tr : list R) (rs rs' : RS) (move : nat) (sign : Z) :
  TransitionChoice.draw_step tr rs = (move, sign, rs') ->
  sign = 1%Z \/ sign = (-1)%Z.
Proof.
  unfold TransitionChoice.draw_step.
  destruct (rs_choice _ _) as [m rs1]. destruct (rs_randint2 rs1) as [b rs2].
  intros [= _ <- _]. destruct b; [by left|by right].
Qed.

(** X17: [mutate()] on a [TransitionChoice] touches one option only, the
    one at the index it ends on: every other option is unchanged. When the
    discretization pair round-trips and the clamped target is a valid
    index, the instance ends on that target, which is at most [move] steps
    away from where it was. *)
Theorem transition_mutate_is_local (st : transition_choice) :
  (forall k, Z.of_nat k <> TransitionChoice.index (TransitionChoice.mutate st).2 ->
      TransitionChoice.choices (TransitionChoice.mutate st).2 !! k
      = TransitionChoice.choices st !! k)
  /\ (discretization_round_trip ->
      let tr := vector_mutate (TransitionChoice.transitions st)
                  (TransitionChoice.random_state st) in
      let '(move, sign, _) := TransitionChoice.draw_step tr.1 tr.2 in
      let target := TransitionChoice.new_index st sign move in
      (target < Z.of_nat (length (TransitionChoice.choices st)))%Z ->
      TransitionChoice.index (TransitionChoice.mutate st).2 = target
      /\ (Z.abs (target - TransitionChoice.index st) <= Z.of_nat move)%Z).
Proof.
  split.
  - intros k. unfold TransitionChoice.mutate.
    destruct (vector_mutate _ _) as [tr rs0].
    destruct (TransitionChoice.draw_step tr rs0) as [[move sign] rs].
    set (st3 := TransitionChoice._set_index _ _).
    destruct (BaseChoice.getitem _ _) as [c|e] eqn:Hc; [|done].
    destruct (param_mutate c _) as [c' rs']. cbn [snd].
    assert (Hindex :
      TransitionChoice.index
        (TransitionChoice.with_random_state rs'
           (TransitionChoice.with_choices
              (<[Z.to_nat (TransitionChoice.index st3) := c']>
                 (TransitionChoice.choices st3)) st3))
      = TransitionChoice.index st3).
    { unfold TransitionChoice.index. cbn. by rewrite length_insert. }
    rewrite Hindex. intros Hk. cbn.
    apply getitem_ok in Hc as [Hpos _].
    apply list_lookup_insert_ne. lia.
  - intros Hround. pose proof (transition_mutate_index st) as Hindex.
    cbv zeta in Hindex |- *.
    destruct (TransitionChoice.draw_step _ _) as [[move sign] rs] eqn:Hdraw.
    apply draw_step_sign in Hdraw.
    intros Htarget.
    assert (Hlow : (0 <= TransitionChoice.new_index st sign move)%Z).
    { unfold TransitionChoice.new_index. lia. }
    rewrite Hindex, Hround by lia. split; [done|].
    assert (Hne : TransitionChoice.choices st <> []).
    { intros Hnil. rewrite Hnil in Htarget. cbn in Htarget. lia. }
    pose proof (transition_index_range st Hne).
    unfold TransitionChoice.new_index.
    destruct Hdraw as [-> | ->]; lia.
Qed.
End TransitionMore.

(** ** The example instance meets the further contracts *)

Import DemoTree.

Lemma pyvalue_eqb_eq : forall a b : pyvalue, pyvalue_eqb a b = true -> a = b.
Proof.
  fix IH 1. intros [|x|s|xs] [|y|t|ys]; cbn; try discriminate; intros Heq.
  - done.
  - f_equal. by apply Z.eqb_eq.
  - f_equal. by apply String.eqb_eq.
  - f_equal. revert ys Heq.
    induction xs as [|x xs IHxs]; intros [|y ys] Heq; try discriminate; [done|].
    apply andb_true_iff in Heq as [Hhead Htail].
    f_equal; [by apply IH|by apply IHxs].
Qed.

Lemma leaf_set_then_get : @set_then_get leaf nat leaf_param.
Proof.
  intros v [held|x] c'; cbn; unfold leaf_set_value.
  - destruct (pyvalue_eqb v held) eqn:Heq; [|discriminate].
    intros [= <-]. cbn. symmetry. by apply pyvalue_eqb_eq.
  - destruct v; try discriminate. by intros [= <-].
Qed.

Lemma counter_round_trip : @discretization_round_trip nat counter.
Proof.
  intros arity index Hrange.
  unfold threshold_discretization, inverse_threshold_discretization.
  cbn [norm_cdf norm_ppf counter].
  set (p := ((IZR index + 1 / 2) / INR arity)%R).
  assert (Hk : (0 < INR arity)%R) by (apply lt_0_INR; lia).
  assert (Hi : (0 <= IZR index)%R) by (apply IZR_le; lia).
  assert (Hi' : (IZR index + 1 <= INR arity)%R).
  { rewrite INR_IZR_INZ, <- plus_IZR. apply IZR_le. lia. }
  assert (Hpk : (INR arity * p = IZR index + 1 / 2)%R).
  { unfold p. field. lra. }
  assert (Hp : (0 < p < 1)%R).
  { split.
    - unfold p. apply Rdiv_lt_0_compat; lra.
    - apply Rmult_lt_reg_l with (INR arity); [done|]. lra. }
  assert (Hodds : (0 < p / (1 - p))%R) by (apply Rdiv_lt_0_compat; lra).
  assert (Hcdf : (1 / (1 + exp (Ropp (ln (p / (1 - p))))) = p)%R).
  { rewrite exp_Ropp, exp_ln by done. field. lra. }
  rewrite Hcdf, Hpk.
  rewrite (Zfloor_eq index) by lra. lia.
Qed.

Lemma counter_confidence_positive (arity : nat) :
  0 < arity -> (0 < @weight_for_reset nat counter arity)%R.
Proof.
  intros Harity. cbn. rewrite <- ln_1. apply ln_increasing; [lra|].
  assert (0 < INR arity)%R by (apply lt_0_INR; lia). lra.
Qed.

Lemma shifting_keeps_shape : @tree_keeps_shape leaf nat shifting.
Proof.
  repeat split; try done. cbn. rewrite <- list_fmap_compose.
  apply list_fmap_ext. intros i row _. cbn. by rewrite length_fmap.
Qed.

Lemma threshold_at_zero : threshold_discretization 0 4 = 2%Z.
Proof.
  unfold threshold_discretization. cbn [norm_cdf counter].
  rewrite Ropp_0, exp_0.
  rewrite (Zfloor_eq 2); [lia|]. cbn. lra.
Qed.

(** ** Instances of the further statements *)

Lemma get_value_hash_ignores_unselected_witness :
  BaseChoice.get_value_hash [0%Z] abce
  = BaseChoice.get_value_hash [0%Z] [Constant (PStr "a"); Scalar 3].
Proof.
  apply get_value_hash_ignores_unselected.
  intros ind Hin. apply list_elem_of_singleton in Hin as ->. reflexivity.
Defined.

Lemma get_value_hash_determines_indices_witness :
  BaseChoice.get_value_hash [3%Z; 1%Z] abce = Ok (PTuple [PInt 3; PInt 1])
  /\ BaseChoice.get_value_hash [3%Z; 1%Z]
       [Constant (PStr "w"); Constant (PStr "x"); Scalar 0; Constant (PStr "z")]
     = Ok (PTuple [PInt 3; PInt 1])
  /\ [3%Z; 1%Z] = [3%Z; 1%Z].
Proof.
  split; [reflexivity|]. split; [reflexivity|].
  apply (get_value_hash_determines_indices [3%Z; 1%Z] [3%Z; 1%Z] abce
           [Constant (PStr "w"); Constant (PStr "x"); Scalar 0;
            Constant (PStr "z")]
           (PTuple [PInt 3; PInt 1])); reflexivity.
Defined.

Lemma find_and_set_value_outcome_witness :
  length (BaseChoice._find_and_set_value false [PStr "c"; PStr "z"] abce).2 = 4
  /\ exists c c',
      param_set_value (PStr "c") c = (Ok tt, c')
      /\ abce !! Z.to_nat 2 = Some c'.
Proof.
  destruct (@find_and_set_value_outcome leaf nat leaf_param false)
    as (Hlen & _ & Haccepted).
  split; [apply (Hlen [PStr "c"; PStr "z"] abce)|].
  apply (Haccepted (PStr "c") abce abce 2%Z). reflexivity.
Defined.

Lemma set_value_then_value_witness :
  let run := Choice.set_value (PStr "c") (fresh None) in
  run.1 = Ok tt
  /\ Choice._get_value run.2 = (Ok (PStr "c"), run.2).
Proof.
  intros run.
  assert (Hrun : run = (Ok tt, run.2)) by reflexivity.
  destruct (set_value_then_value (PStr "c") (fresh None) run.2
              leaf_set_then_get eq_refl Hrun) as [Hvalue _].
  split; [reflexivity|exact Hvalue].
Defined.

Lemma set_value_failure_modes_witness :
  let after :=
    Choice.set_value (PTuple [PStr "a"; PStr "b"; PStr "c"]) (fresh (Some 2)) in
  after.1 = Raise IndexError
  /\ Choice.weights after.2 = zeros_like (Choice.weights (fresh (Some 2)))
  /\ Choice._indices after.2 = Some [0%Z; 1%Z; 2%Z].
Proof.
  destruct (set_value_failure_modes (Some 2) 4
              (PTuple [PStr "a"; PStr "b"; PStr "c"])
              [PStr "a"; PStr "b"; PStr "c"] (fresh (Some 2))
              (init_well_formed _ _ _ _ _ (fresh_is_init (Some 2))) eq_refl)
    as (_ & _ & Hmany).
  apply (Hmany [0%Z; 1%Z; 2%Z]); [reflexivity|cbn; lia].
Defined.


Lemma zero_repetitions_witness :
  (Choice.indices (fresh (Some 0))).1 = []
  /\ (Choice._get_value (fresh (Some 0))).1 = Ok (PTuple [])
  /\ (Choice.index (fresh (Some 0))).1 = Raise AssertionError
  /\ (Choice.get_value_hash (fresh (Some 0))).1 = Raise IndexError.
Proof.
  apply (zero_repetitions 4).
  apply (init_well_formed _ _ _ _ _ (fresh_is_init (Some 0))).
Defined.


Lemma set_value_then_deterministic_draw_witness :
  let run := Choice.set_value (PTuple [PStr "e"; PStr "a"]) (fresh (Some 2)) in
  run.1 = Ok tt /\ Choice._draw true run.2 = run.2.
Proof.
  intros run.
  assert (Hrun : run = (Ok tt, run.2)) by reflexivity.
  destruct (set_value_then_deterministic_draw (Some 2) 4
              (PTuple [PStr "e"; PStr "a"]) (fresh (Some 2)) run.2
              (init_well_formed _ _ _ _ _ (fresh_is_init (Some 2)))
              eq_refl (counter_confidence_positive 4 ltac:(lia)) Hrun)
    as [_ Hdraw].
  split; [reflexivity|exact Hdraw].
Defined.

Lemma set_standardized_data_redraws_witness :
  let st' := ChoiceTree._internal_set_standardized_data [1%R]
               (fresh (Some 2)) true (fresh (Some 2)) in
  Choice.well_formed (Some 2) 4 st'
  /\ Choice._indices st'
     = Some ((fun row : list R => Z.of_nat (argmax row)) <$> Choice.weights st').
Proof.
  destruct (set_standardized_data_redraws (Some 2) 4 [1%R] (fresh (Some 2))
              (fresh (Some 2)) true shifting_keeps_shape
              counter_choice_in_range
              (init_well_formed _ _ _ _ _ (fresh_is_init (Some 2))))
    as (Hwf & _ & Hdet).
  split; [exact Hwf|by apply Hdet].
Defined.

Lemma spawn_child_is_fresh_witness :
  exists child,
    ChoiceTree._internal_spawn_child 7 (fresh (Some 2)) = Ok child
    /\ Choice.well_formed (Some 2) 4 child
    /\ Choice._indices child = None.
Proof.
  destruct (spawn_child_is_fresh (Some 2) 4 7 (fresh (Some 2))
              shifting_keeps_shape
              (init_well_formed _ _ _ _ _ (fresh_is_init (Some 2))))
    as (child & Hspawn & Hwf & Hnone & _).
  by exists child.
Defined.

Lemma get_name_tags_deterministic_witness :
  ChoiceTree._get_name "Tuple(a,b)" "Choice" true = Raise AssertionError
  /\ exists tagged,
      ChoiceTree._get_name "Choice(a,b)" "Choice" true = Ok tagged
      /\ String.length tagged = 16.
Proof.
  split.
  - by apply (proj1 (get_name_tags_deterministic "Tuple(a,b)" "Choice")).
  - destruct (proj2 (get_name_tags_deterministic "Choice(a,b)" "Choice")
                eq_refl)
      as (_ & rest & tagged & _ & Hname & _ & _ & Hlen & _).
    by exists tagged.
Defined.

Lemma transition_reads_never_fail_witness :
  exists c,
    TransitionChoice.choices fresh_transition
      !! Z.to_nat (TransitionChoice.index fresh_transition) = Some c
    /\ TransitionChoice._get_value fresh_transition = Ok (param_value c).
Proof.
  destruct (transition_reads_never_fail fresh_transition ltac:(done))
    as (c & Hc & Hv & _).
  by exists c.
Defined.

Lemma transition_set_value_then_value_witness :
  let run := TransitionChoice.set_value (PStr "c") fresh_transition in
  run.1 = Ok tt
  /\ TransitionChoice._get_value run.2 = Ok (PStr "c").
Proof.
  intros run.
  assert (Hrun : run = (Ok tt, run.2)) by reflexivity.
  destruct (transition_set_value_then_value (PStr "c") fresh_transition)
    as [_ Hok].
  destruct (Hok counter_round_trip leaf_set_then_get run.2 Hrun) as [Hvalue _].
  split; [reflexivity|exact Hvalue].
Defined.

Lemma transition_mutate_is_local_witness :
  TransitionChoice.index (TransitionChoice.mutate fresh_transition).2 = 3%Z.
Proof.
  assert (Hindex : TransitionChoice.index fresh_transition = 2%Z)
    by apply threshold_at_zero.
  destruct (transition_mutate_is_local fresh_transition) as [_ Hlocal].
  specialize (Hlocal counter_round_trip). cbv zeta in Hlocal.
  assert (Hdraw :
    TransitionChoice.draw_step
      (vector_mutate (TransitionChoice.transitions fresh_transition)
         (TransitionChoice.random_state fresh_transition)).1
      (vector_mutate (TransitionChoice.transitions fresh_transition)
         (TransitionChoice.random_state fresh_transition)).2
    = (1, 1%Z, 3)) by reflexivity.
  rewrite Hdraw in Hlocal. cbv beta iota in Hlocal.
  assert (Htarget : TransitionChoice.new_index fresh_transition 1 1 = 3%Z).
  { unfold TransitionChoice.new_index. rewrite Hindex. cbn. lia. }
  destruct Hlocal as [Hends _]; [rewrite Htarget; cbn; lia|].
  by rewrite Hends.
Defined.
